(** * The OpenAI Elo evaluator of YiVal

    A shallow embedding of [src/yival/evaluators/openai_elo_evaluator.py]:
    the Elo engine ([expected_score], [update_elo]), the pair generator and
    request builder of [evaluate_based_on_all_results], the replay of the
    judge's verdicts into the table of ratings, and the write-back of the
    final ratings onto the aggregated-metrics records.

    Numbers.  Python's [float] is modelled by the real numbers [R]; the
    integer literals [1200], [32], [1], [0] of the source are the reals of
    the same value, and [10 ** x] is [Rpower 10 x].

    Text.  A Python [str] is a sequence of Unicode code points; it is
    modelled as [list N].  String literals of the source are written with
    [lit], which maps a literal to its code points.

    Mutation.  The evaluator mutates [experiment[0]] in place and returns
    [None]; here it returns the list of experiments as it stands after the
    call.  An exception leaves the list as it was (every write of the source
    happens in its last loop, which cannot raise), so [Raise] carries no
    state. *)

From Stdlib Require Import Reals Lra String Ascii NArith.
From stdpp Require Import gmap list.

Abbreviation str := (list N).

Definition lit (s : string) : str :=
  (fun a => N_of_ascii a) <$> list_ascii_of_string s.

(** ** Python text primitives used by the evaluator *)

Module Py.

(** [Py_UNICODE_ISSPACE]: the characters [str.strip()] removes and the
    class [\s] of [re] on [str] patterns. *)
Definition isspace (c : N) : bool :=
  ((9 <=? c) && (c <=? 13) || (28 <=? c) && (c <=? 32)
   || (c =? 133) || (c =? 160) || (c =? 5760)
   || (8192 <=? c) && (c <=? 8202)
   || (c =? 8232) || (c =? 8233) || (c =? 8239) || (c =? 8287)
   || (c =? 12288))%N.

Fixpoint lstrip (s : str) : str :=
  match s with
  | c :: s' => if isspace c then lstrip s' else s
  | [] => []
  end.

(** [s.strip()] *)
Definition strip (s : str) : str := rev (lstrip (rev (lstrip s))).

(** [itertools.combinations(l, 2)]: the pairs [(l[i], l[j])], [i < j], in
    lexicographic order of [(i, j)]. *)
Fixpoint combinations2 {A : Type} (l : list A) : list (A * A) :=
  match l with
  | [] => []
  | x :: l' => (pair x <$> l') ++ combinations2 l'
  end.

(** [math.comb(n, k)] *)
Fixpoint comb (n k : nat) : nat :=
  match k, n with
  | O, _ => 1
  | S _, O => 0
  | S k', S n' => comb n' k' + comb n' k
  end.

End Py.

(** ** The fragment of Python's [re] that the evaluator's pattern uses

    A backtracking matcher in continuation-passing style, with the priorities
    of [re]: a greedy star first tries to take one more character, a lazy
    star first tries to stop, an alternation tries its left branch first.
    A star ranges over a one-character class, which is all the pattern
    needs.  There is one capture group. *)

Module Re.

Inductive regex : Type :=
| Lit (w : str)                          (* a literal run of characters *)
| Star (greedy : bool) (p : N -> bool)   (* [c*] and [c*?], c a class *)
| Seq (r1 r2 : regex)
| Alt (r1 r2 : regex)
| Group (r : regex)                      (* [( ... )], group 1 *)
| Eos.                                   (* [$], without MULTILINE *)

Fixpoint strip_prefix (w s : str) : option str :=
  match w, s with
  | [], _ => Some s
  | a :: w', b :: s' => if (a =? b)%N then strip_prefix w' s' else None
  | _ :: _, [] => None
  end.

Definition orelse {A : Type} (x y : option A) : option A :=
  match x with Some a => Some a | None => y end.

(** [exec r s g k]: match [r] at the head of [s], the capture so far
    being [g]; [k] is what remains to be matched. *)
Fixpoint exec {A : Type} (r : regex) (s : str) (g : option str)
    (k : str -> option str -> option A) : option A :=
  match r with
  | Lit w =>
      match strip_prefix w s with
      | Some s' => k s' g
      | None => None
      end
  | Star greedy p =>
      (fix loop (s : str) : option A :=
         match s with
         | c :: s' =>
             if p c then
               if greedy then orelse (loop s') (k s g)
               else orelse (k s g) (loop s')
             else k s g
         | [] => k s g
         end) s
  | Seq r1 r2 => exec r1 s g (fun s' g' => exec r2 s' g' k)
  | Alt r1 r2 => orelse (exec r1 s g k) (exec r2 s g k)
  | Group r =>
      exec r s g (fun s' _ => k s' (Some (take (length s - length s') s)))
  | Eos =>
      match s with
      | [] => k s g
      | [c] => if (c =? 10)%N then k s g else None
      | _ => None
      end
  end.

(** [re.search(r, s)] followed by [.group(1)]: the leftmost start at
    which [r] matches; [None] when there is no match, [Some None] when
    there is one in which group 1 took no part. *)
Fixpoint search (r : regex) (s : str) : option (option str) :=
  match exec r s None (fun _ g => Some g) with
  | Some g => Some g
  | None =>
      match s with
      | [] => None
      | _ :: s' => search r s'
      end
  end.

(** [\s] and [.] (without DOTALL) *)
Definition space : N -> bool := Py.isspace.
Definition dot (c : N) : bool := negb (c =? 10)%N.

End Re.

(** ** Exceptions

    The two exceptions the evaluator itself can raise: a rating looked up
    under a key the table lacks, and a response read past the end of the
    dispatcher's list. *)

Inductive exn : Type :=
| KeyError (key : str)
| IndexError (index : nat).

Inductive res (A : Type) : Type :=
| Ok (a : A)
| Raise (e : exn).

Arguments Ok {A} a.
Arguments Raise {A} e.

#[global] Instance res_ret : MRet res := fun _ a => Ok a.
#[global] Instance res_bind : MBind res := fun _ _ f m =>
  match m with
  | Ok a => f a
  | Raise e => Raise e
  end.

(** [d[key]] on a dict *)
Definition getitem (d : gmap str R) (key : str) : res R :=
  match d !! key with
  | Some v => Ok v
  | None => Raise (KeyError key)
  end.

(** [l[i]] on a list, [i] a non-negative index *)
Definition getindex {A : Type} (l : list A) (i : nat) : res A :=
  match l !! i with
  | Some v => Ok v
  | None => Raise (IndexError i)
  end.

(** A [for] loop whose body may raise, threading the loop's state. *)
Fixpoint for_each {A S : Type} (body : S -> A -> res S) (s : S) (l : list A)
    : res S :=
  match l with
  | [] => Ok s
  | x :: l' => s' ← body s x; for_each body s' l'
  end.

(** ** The data model ([schemas/experiment_config.py], as the evaluator
    uses it)

    [combination] is a dict that the evaluator reads only through
    [str(result.combination)]; the field holds that rendering.  The fields
    of [ExperimentResult] the evaluator never reads ([input_data],
    [latency], [token_usage]) are left out.  Records are values: two
    entries of a list are never one shared object. *)

Record ExperimentResult : Type := {
  combination : str;
  raw_output : str
}.

Record GroupedExperimentResult : Type := {
  group_key : str;
  experiment_results : list ExperimentResult
}.

Record Metric : Type := {
  metric_name : str;
  metric_value : R
}.

Record EvaluatorOutput : Type := {
  name : str;
  result : R
}.

Record CombinationAggregatedMetrics : Type := {
  combo_key : str;
  cam_experiment_results : list ExperimentResult;
  aggregated_metrics : list (str * list Metric);
  evaluator_outputs : option (list EvaluatorOutput)
}.

Record Experiment : Type := {
  group_experiment_results : list GroupedExperimentResult;
  combination_aggregated_metrics : list CombinationAggregatedMetrics
}.

Record OpenAIEloEvaluatorConfig : Type := {
  openai_model_name : str;
  input_description : str
}.

(** One entry of a chat request, [{"role": ..., "content": ...}]. *)
Record ChatMessage : Type := {
  role : str;
  content : str
}.

(** [parallel_completions(message_batches, model, max_tokens=1,
    temperature=0.5, presence_penalty=0, pbar=pbar)] is the external judge.
    It is a parameter of the evaluator; a response is held by the one field
    the evaluator reads, [response["choices"][0]["message"]["content"]]. *)
Definition Dispatcher : Type := list (list ChatMessage) -> str -> list str.

(** ** The evaluator *)

Definition K : R := 32.

Definition RANKING_SYSTEM_PROMPT : str := lit
"Your job is to rank the quality of two outputs
generated by different prompts. The prompts are used to generate a response
for a given task and its associated input data.
You will be provided with the task description, the test input data, and two
generations - one for each system prompt.
Rank the generations in order of quality. If Generation A is better, respond
with 'A'. If Generation B is better, respond with 'B'.
Remember, to be considered 'better', a generation must not just be good, it
must be noticeably superior to the other. Also, keep in mind that you are a
very harsh critic. Only rank a generation as better if it truly impresses you
more than the other. Respond with your ranking, and nothing else. Be fair and
unbiased in your judgement.".

Definition expected_score (r1 r2 : R) : R :=
  (1 / (1 + Rpower 10 ((r2 - r1) / 400)))%R.

Definition update_elo (r1 r2 score1 : R) : R * R :=
  let e1 := expected_score r1 r2 in
  let e2 := expected_score r2 r1 in
  ((r1 + K * (score1 - e1))%R, (r2 + K * ((1 - score1) - e2))%R).

(** [1 if score == 'A' else 0 if score == 'B' else 0.5] *)
Definition verdict_score (score : str) : R :=
  if decide (score = lit "A") then 1%R
  else if decide (score = lit "B") then 0%R
  else (1 / 2)%R.

(** [pattern = r'content:\s*(\{.*?\})(?:,|$)'] *)
Definition pattern : Re.regex :=
  Re.Seq (Re.Lit (lit "content:"))
 (Re.Seq (Re.Star true Re.space)
 (Re.Seq (Re.Group (Re.Seq (Re.Lit (lit "{"))
                   (Re.Seq (Re.Star false Re.dot)
                           (Re.Lit (lit "}")))))
         (Re.Alt (Re.Lit (lit ",")) Re.Eos))).

(** Lines 117-124: the task text of a group.  [str(None)] is what an
    f-string would render for a group that took no part in the match. *)
Definition test_case_of (group_experiment_result : GroupedExperimentResult)
    : str :=
  let test_case := group_key group_experiment_result in
  match Re.search pattern test_case with
  | Some (Some g1) => g1
  | Some None => lit "None"
  | None => []
  end.

Definition newline : str := [10%N].
Definition indent : str := replicate 24 32%N.

(** The f-string of lines 136-139 and 150-153. *)
Definition user_content (self : OpenAIEloEvaluatorConfig)
    (test_case generation_a generation_b : str) : str :=
  lit "Task: " ++ Py.strip (input_description self) ++ newline
  ++ indent ++ lit "Prompt: " ++ test_case ++ newline
  ++ indent ++ lit "Generation A: " ++ generation_a ++ newline
  ++ indent ++ lit "Generation B: " ++ generation_b.

Definition message (self : OpenAIEloEvaluatorConfig)
    (test_case generation_a generation_b : str) : list ChatMessage :=
  [ {| role := lit "system"; content := RANKING_SYSTEM_PROMPT |};
    {| role := lit "user";
       content := user_content self test_case generation_a generation_b |} ].

(** Lines 108-111. *)
Definition total_rounds (e : Experiment) : nat :=
  sum_list ((fun group_experiment_result =>
               Py.comb (length (experiment_results group_experiment_result)) 2)
            <$> group_experiment_results e) * 2.

(** Lines 126-155: the body of the inner loop, appending to
    [message_batches]. *)
Definition append_pair (self : OpenAIEloEvaluatorConfig) (test_case : str)
    (message_batches : list (list ChatMessage))
    (p : ExperimentResult * ExperimentResult) : list (list ChatMessage) :=
  let '(result1, result2) := p in
  let message1 :=
    message self test_case (raw_output result1) (raw_output result2) in
  let message_batches := message_batches ++ [message1] in
  let message2 :=
    message self test_case (raw_output result2) (raw_output result1) in
  message_batches ++ [message2].

(** Lines 116-155: the body of the outer loop. *)
Definition append_group (self : OpenAIEloEvaluatorConfig)
    (message_batches : list (list ChatMessage))
    (group_experiment_result : GroupedExperimentResult)
    : list (list ChatMessage) :=
  let test_case := test_case_of group_experiment_result in
  foldl (append_pair self test_case) message_batches
    (Py.combinations2 (experiment_results group_experiment_result)).

Definition build_message_batches (self : OpenAIEloEvaluatorConfig)
    (e : Experiment) : list (list ChatMessage) :=
  foldl (append_group self) [] (group_experiment_results e).

(** Lines 104-107: the dict comprehension. *)
Definition init_ratings (cams : list CombinationAggregatedMetrics)
    : gmap str R :=
  foldl (fun d combo => <[combo_key combo := 1200%R]> d) ∅ cams.

(** Lines 177-191: one pair of the replay loop.  The loop state is
    [(idx, prompt_ratings)].  [score2] is read and interpreted, and then not
    used. *)
Definition replay_pair (responses : list str)
    (st : nat * gmap str R) (p : ExperimentResult * ExperimentResult)
    : res (nat * gmap str R) :=
  let '(idx, prompt_ratings) := st in
  let '(result1, result2) := p in
  let formatted_combination1 := combination result1 in
  let formatted_combination2 := combination result2 in
  score1 ← getindex responses idx;
  let score1 := verdict_score score1 in
  let idx := idx + 1 in
  score2 ← getindex responses idx;
  let score2 := verdict_score score2 in
  let idx := idx + 1 in
  r1 ← getitem prompt_ratings formatted_combination1;
  r2 ← getitem prompt_ratings formatted_combination2;
  let '(r1, r2) := update_elo r1 r2 score1 in
  Ok (idx, <[formatted_combination2 := r2]>
             (<[formatted_combination1 := r1]> prompt_ratings)).

Definition replay_group (responses : list str)
    (st : nat * gmap str R)
    (group_experiment_result : GroupedExperimentResult)
    : res (nat * gmap str R) :=
  for_each (replay_pair responses) st
    (Py.combinations2 (experiment_results group_experiment_result)).

(** Lines 171-191. *)
Definition replay (responses : list str) (prompt_ratings : gmap str R)
    (e : Experiment) : res (gmap str R) :=
  st ← for_each (replay_group responses) (0, prompt_ratings)
         (group_experiment_results e);
  Ok st.2.

(** Lines 197-205: the body of the last loop, on one record.  An absent
    or empty list of outputs is replaced by a new empty list, and the
    rating is appended. *)
Definition attach_rating (prompt_ratings : gmap str R)
    (combo : CombinationAggregatedMetrics)
    : res CombinationAggregatedMetrics :=
  let outputs :=
    match evaluator_outputs combo with
    | None | Some [] => []
    | Some outputs => outputs
    end in
  rating ← getitem prompt_ratings (combo_key combo);
  Ok {| combo_key := combo_key combo;
        cam_experiment_results := cam_experiment_results combo;
        aggregated_metrics := aggregated_metrics combo;
        evaluator_outputs :=
          Some (outputs ++ [ {| name := lit "openai_elo_evaluator";
                                result := rating |} ]) |}.

(** Lines 194-205. *)
Fixpoint aggregate (prompt_ratings : gmap str R)
    (cams : list CombinationAggregatedMetrics)
    : res (list CombinationAggregatedMetrics) :=
  match cams with
  | [] => Ok []
  | combo :: cams' =>
      combo' ← attach_rating prompt_ratings combo;
      cams'' ← aggregate prompt_ratings cams';
      Ok (combo' :: cams'')
  end.

(** Lines 98-205. *)
Definition evaluate_based_on_all_results (self : OpenAIEloEvaluatorConfig)
    (parallel_completions : Dispatcher) (experiment : list Experiment)
    : res (list Experiment) :=
  match experiment with
  | [experiment0] =>
      let prompt_ratings :=
        init_ratings (combination_aggregated_metrics experiment0) in
      let message_batches := build_message_batches self experiment0 in
      let responses :=
        parallel_completions message_batches (openai_model_name self) in
      prompt_ratings ← replay responses prompt_ratings experiment0;
      cams ← aggregate prompt_ratings
                (combination_aggregated_metrics experiment0);
      Ok [ {| group_experiment_results :=
                group_experiment_results experiment0;
              combination_aggregated_metrics := cams |} ]
  | _ => Ok experiment
  end.

(** The table of ratings as it stands when the last loop starts. *)
Definition final_ratings (self : OpenAIEloEvaluatorConfig)
    (parallel_completions : Dispatcher) (experiment0 : Experiment)
    : res (gmap str R) :=
  replay
    (parallel_completions (build_message_batches self experiment0)
       (openai_model_name self))
    (init_ratings (combination_aggregated_metrics experiment0))
    experiment0.

(** * Vocabulary of the statements *)

(** ** The requests of a group *)

(** The two requests of a pair, A-order then B-order. *)
Definition requests_of_pair (self : OpenAIEloEvaluatorConfig)
    (test_case : str) (p : ExperimentResult * ExperimentResult)
    : list (list ChatMessage) :=
  [ message self test_case (raw_output p.1) (raw_output p.2);
    message self test_case (raw_output p.2) (raw_output p.1) ].

(** The requests of a group, pair after pair. *)
Definition requests_of_group (self : OpenAIEloEvaluatorConfig)
    (g : GroupedExperimentResult) : list (list ChatMessage) :=
  p ← Py.combinations2 (experiment_results g);
  requests_of_pair self (test_case_of g) p.

(** ** The matches of an experiment *)

(** A match, held by the keys of its two treatments. *)
Definition keys_of_pair (p : ExperimentResult * ExperimentResult)
    : str * str :=
  (combination p.1, combination p.2).

(** The matches of an experiment in the order of the replay. *)
Definition schedule (e : Experiment) : list (str * str) :=
  g ← group_experiment_results e;
  keys_of_pair <$> Py.combinations2 (experiment_results g).

(** [replay_pair] on a match given by its keys: the step reads its two
    results through their keys only. *)
Definition replay_keys (responses : list str) (st : nat * gmap str R)
    (ks : str * str) : res (nat * gmap str R) :=
  replay_pair responses st
    ({| combination := ks.1; raw_output := [] |},
     {| combination := ks.2; raw_output := [] |}).

(** A treatment plays when it is one of the two sides of some match. *)
Definition plays (k : str) (e : Experiment) : Prop :=
  exists ks, ks ∈ schedule e /\ (k = ks.1 \/ k = ks.2).

(** ** The records after the write-back *)

(** What the last loop leaves on one record, given its rating. *)
Definition with_rating (rating : R) (combo : CombinationAggregatedMetrics)
    : CombinationAggregatedMetrics :=
  {| combo_key := combo_key combo;
     cam_experiment_results := cam_experiment_results combo;
     aggregated_metrics := aggregated_metrics combo;
     evaluator_outputs :=
       Some (default [] (evaluator_outputs combo)
             ++ [ {| name := lit "openai_elo_evaluator";
                     result := rating |} ]) |}.

(** ** Blobs in a group key *)

(** One attempt of [Re.search]: the pattern at the head of [s]. *)
Definition match_here (r : Re.regex) (s : str) : option (option str) :=
  Re.exec r s None (fun _ g => Some g).

(** The two last parts of [pattern]: the group, and what follows it. *)
Definition blob : Re.regex :=
  Re.Group (Re.Seq (Re.Lit (lit "{"))
           (Re.Seq (Re.Star false Re.dot) (Re.Lit (lit "}")))).

Definition tail : Re.regex := Re.Alt (Re.Lit (lit ",")) Re.Eos.

(** What may follow a blob: a comma, or the end of the text (the end, or
    a last line feed). *)
Definition closes (post : str) : Prop :=
  (exists post', post = 44%N :: post') \/ post = [] \/ post = [10%N].

(** [s] begins with the label "content:", white space [ws], a blob
    [{body}] on one line, and [post] closes it. *)
Definition blob_here (s ws body post : str) : Prop :=
  s = lit "content:" ++ ws ++ lit "{" ++ body ++ lit "}" ++ post
  /\ Forall (fun c => Py.isspace c = true) ws
  /\ Forall (fun c => c ≠ 10%N) body
  /\ closes post.

(** [key] holds a blob after the prefix [pre]. *)
Definition blob_at (key pre ws body post : str) : Prop :=
  exists rest, key = pre ++ rest /\ blob_here rest ws body post.

(** The blob of the first match: the leftmost label that starts one, and
    from there the shortest body. *)
Definition first_blob (key text : str) : Prop :=
  exists pre ws body post,
    blob_at key pre ws body post
    /\ text = lit "{" ++ body ++ lit "}"
    /\ forall pre' ws' body' post',
         blob_at key pre' ws' body' post' ->
         length pre <= length pre'
         /\ (length pre' = length pre -> length body <= length body').

(** ** Experiments to run the evaluator on *)

(** The data of [create_test_data_v2]: three treatments, two groups of
    three results. *)
Module TestData.

Definition result_of (combination_name : string) (output : str)
    : ExperimentResult :=
  {| combination := lit "{'name': '" ++ lit combination_name ++ lit "'}";
     raw_output := output |}.

Definition er1 := result_of "A" (lit "Bonjour le monde!").
Definition er2 := result_of "A" (lit "Comment " ++ [231%N] ++ lit "a va?").
Definition er3 := result_of "B" (lit "Salut monde!").
Definition er4 := result_of "B" (lit "Comment tu es?").
Definition er5 := result_of "C" (lit "Bonjour monde!").
Definition er6 := result_of "C" (lit "Comment vas-tu?").

Definition ger1 : GroupedExperimentResult :=
  {| group_key := lit "{'text': 'Hello world!'}";
     experiment_results := [er1; er3; er5] |}.
Definition ger2 : GroupedExperimentResult :=
  {| group_key := lit "{'text': 'How are you?'}";
     experiment_results := [er2; er4; er6] |}.

Definition cam_of (r r' : ExperimentResult) (accuracy : R)
    : CombinationAggregatedMetrics :=
  {| combo_key := combination r;
     cam_experiment_results := [r; r'];
     aggregated_metrics :=
       [(lit "accuracy",
         [ {| metric_name := lit "accuracy"; metric_value := accuracy |} ])];
     evaluator_outputs := None |}.

Definition cam1 := cam_of er1 er2 (95 / 100)%R.
Definition cam2 := cam_of er3 er4 (85 / 100)%R.
Definition cam3 := cam_of er5 er6 (90 / 100)%R.

Definition create_test_data_v2 : Experiment :=
  {| group_experiment_results := [ger1; ger2];
     combination_aggregated_metrics := [cam1; cam2; cam3] |}.

(** The configuration of [main]; the model name is the default of the
    configuration schema. *)
Definition config : OpenAIEloEvaluatorConfig :=
  {| openai_model_name := lit "gpt-4";
     input_description :=
       lit "Translate the given English sentence to French" |}.

(** A group of one result. *)
Definition lonely : GroupedExperimentResult :=
  {| group_key := lit "{'text': 'Hello world!'}";
     experiment_results := [er1] |}.

(** One treatment without opponents. *)
Definition single : Experiment :=
  {| group_experiment_results := [lonely];
     combination_aggregated_metrics := [cam1] |}.

(** Two treatments, one group. *)
Definition duel : Experiment :=
  {| group_experiment_results :=
       [ {| group_key := lit "{'text': 'Hello world!'}";
            experiment_results := [er1; er3] |} ];
     combination_aggregated_metrics := [cam1; cam2] |}.

(** A judge that answers every request with the same token. *)
Definition always (token : string) : Dispatcher :=
  fun message_batches _ => (fun _ => lit token) <$> message_batches.

End TestData.

(** ** Vocabulary of the further properties *)

(** The keys listed in the aggregated-metrics records. *)
Definition listed (e : Experiment) : list str :=
  combo_key <$> combination_aggregated_metrics e.

(** The pairs of an experiment in the order of the two loops, each with
    its group. *)
Definition fixtures (e : Experiment)
    : list (GroupedExperimentResult * (ExperimentResult * ExperimentResult)) :=
  g ← group_experiment_results e;
  pair g <$> Py.combinations2 (experiment_results g).

(** The elements at the even positions of a list. *)
Fixpoint evens {A : Type} (l : list A) : list A :=
  match l with
  | a :: _ :: l' => a :: evens l'
  | _ => l
  end.

(** The effect of one match on the table, given the token of its A-order
    rendering. *)
Definition play (d : gmap str R) (m : str * str * str) : gmap str R :=
  let '(k1, k2, token) := m in
  match d !! k1, d !! k2 with
  | Some r1, Some r2 =>
      let r' := update_elo r1 r2 (verdict_score token) in
      <[k2 := r'.2]> (<[k1 := r'.1]> d)
  | _, _ => d
  end.


(** A token that is neither "A" nor "B". *)
Definition indeterminate (token : str) : Prop :=
  token ≠ lit "A" /\ token ≠ lit "B".

(** The first group of the test data with only two of its three
    treatments listed. *)
Definition stray : Experiment :=
  {| group_experiment_results := [TestData.ger1];
     combination_aggregated_metrics := [TestData.cam1; TestData.cam2] |}.

(** * Properties *)

(** ** The Elo engine *)

Section Elo.

Local Open Scope R_scope.

Lemma Rpower_10_pos (x : R) : 0 < Rpower 10 x.
Proof. unfold Rpower. apply exp_pos. Qed.

Lemma Rpower_10_swap (r1 r2 : R) :
  Rpower 10 ((r1 - r2) / 400) = / Rpower 10 ((r2 - r1) / 400).
Proof.
  rewrite <- Rpower_Ropp. f_equal. lra.
Qed.

Lemma expected_score_sum (r1 r2 : R) :
  expected_score r1 r2 + expected_score r2 r1 = 1.
Proof.
  unfold expected_score. rewrite (Rpower_10_swap r1 r2).
  pose proof (Rpower_10_pos ((r2 - r1) / 400)) as Hx.
  set (x := Rpower 10 ((r2 - r1) / 400)) in *.
  assert (0 < / x) by (apply Rinv_0_lt_compat; exact Hx).
  field. split; lra.
Qed.

Lemma expected_score_same (r : R) : expected_score r r = 1 / 2.
Proof.
  pose proof (expected_score_sum r r). lra.
Qed.

Lemma expected_score_bounds (r1 r2 : R) : 0 < expected_score r1 r2 < 1.
Proof.
  assert (pos : forall a b, 0 < expected_score a b).
  { intros a b. unfold expected_score.
    pose proof (Rpower_10_pos ((b - a) / 400)).
    apply Rdiv_lt_0_compat; lra. }
  pose proof (pos r1 r2). pose proof (pos r2 r1).
  pose proof (expected_score_sum r1 r2). lra.
Qed.

(** C2.  [expected_score] is the logistic curve of base 10 and scale 400,
    [K] is 32, and [update_elo] moves each rating by [K] times the
    difference between its outcome and its expected score. *)
Theorem update_elo_formula (r1 r2 score1 : R) :
  expected_score r1 r2 = 1 / (1 + Rpower 10 ((r2 - r1) / 400))
  /\ K = 32
  /\ update_elo r1 r2 score1
     = (r1 + K * (score1 - expected_score r1 r2),
        r2 + K * ((1 - score1) - expected_score r2 r1))
  /\ update_elo r1 r2 score1
     = (r1 + 32 * (score1 - 1 / (1 + Rpower 10 ((r2 - r1) / 400))),
        r2 + 32 * ((1 - score1) - 1 / (1 + Rpower 10 ((r1 - r2) / 400)))).
Proof.
  repeat split; reflexivity.
Qed.

(** C4.  When the two outcomes add up to one, the second rating moves by
    [K * (s2 - expected_score r2 r1)] and the sum of the two ratings is
    the same after the update as before. *)
Theorem update_elo_preserves_mass (r1 r2 s1 s2 : R) :
  s1 + s2 = 1 ->
  (update_elo r1 r2 s1).2 = r2 + K * (s2 - expected_score r2 r1)
  /\ (update_elo r1 r2 s1).1 + (update_elo r1 r2 s1).2 = r1 + r2.
Proof.
  intros Hs. unfold update_elo; simpl.
  pose proof (expected_score_sum r1 r2) as He.
  split.
  - replace (1 - s1) with s2 by lra. reflexivity.
  - unfold K. lra.
Qed.

Lemma update_elo_preserves_mass_witness :
  (update_elo 1200 1200 1).2 = 1200 + K * (0 - expected_score 1200 1200)
  /\ (update_elo 1200 1200 1).1 + (update_elo 1200 1200 1).2 = 1200 + 1200.
Proof.
  apply (update_elo_preserves_mass 1200 1200 1 0). lra.
Defined.

End Elo.

(** ** The verdict interpreter *)

Lemma verdict_score_A : verdict_score (lit "A") = 1%R.
Proof. reflexivity. Qed.

Lemma verdict_score_B : verdict_score (lit "B") = 0%R.
Proof. reflexivity. Qed.

Lemma verdict_score_other (score : str) :
  score ≠ lit "A" -> score ≠ lit "B" -> verdict_score score = (1 / 2)%R.
Proof.
  intros HA HB. unfold verdict_score.
  destruct (decide (score = lit "A")); [done|].
  destruct (decide (score = lit "B")); done.
Qed.

Lemma verdict_score_cases (score : str) :
  verdict_score score = 1%R \/ verdict_score score = 0%R
  \/ verdict_score score = (1 / 2)%R.
Proof.
  unfold verdict_score.
  destruct (decide (score = lit "A")); [by left|].
  destruct (decide (score = lit "B")); [by right; left|by right; right].
Qed.

(** One step of the replay, when both responses are there and both
    treatments are rated: it never raises, whatever the two tokens. *)
Lemma replay_pair_ok (responses : list str) (idx : nat) (d : gmap str R)
    (result1 result2 : ExperimentResult) (c1 c2 : str) (r1 r2 : R) :
  responses !! idx = Some c1 ->
  responses !! (idx + 1) = Some c2 ->
  d !! combination result1 = Some r1 ->
  d !! combination result2 = Some r2 ->
  replay_pair responses (idx, d) (result1, result2)
  = Ok (idx + 1 + 1,
        <[combination result2 := (update_elo r1 r2 (verdict_score c1)).2]>
          (<[combination result1 := (update_elo r1 r2 (verdict_score c1)).1]>
             d)).
Proof.
  intros H1 H2 H3 H4. unfold replay_pair, getindex, getitem.
  rewrite H1. simpl. rewrite H2. simpl. rewrite H3. simpl. rewrite H4.
  simpl. reflexivity.
Qed.

(** C3.  The interpretation of a verdict is defined on every string: "A"
    is 1, "B" is 0, every other string is 1/2; and a step of the replay
    whose two responses are there and whose two treatments are rated
    returns normally whatever the two tokens are. *)
Theorem verdict_score_total (score : str) :
  (score = lit "A" /\ verdict_score score = 1%R
   \/ score = lit "B" /\ verdict_score score = 0%R
   \/ score ≠ lit "A" /\ score ≠ lit "B" /\ verdict_score score = (1 / 2)%R)
  /\ forall (responses : list str) (idx : nat) (d : gmap str R)
       (result1 result2 : ExperimentResult) (other : str) (r1 r2 : R),
       responses !! idx = Some score ->
       responses !! (idx + 1) = Some other ->
       d !! combination result1 = Some r1 ->
       d !! combination result2 = Some r2 ->
       exists d', replay_pair responses (idx, d) (result1, result2)
                  = Ok (idx + 1 + 1, d').
Proof.
  split.
  - destruct (decide (score = lit "A")) as [->|HA].
    { left. split; [done|apply verdict_score_A]. }
    destruct (decide (score = lit "B")) as [->|HB].
    { right; left. split; [done|apply verdict_score_B]. }
    right; right. repeat split; try done. by apply verdict_score_other.
  - intros responses idx d result1 result2 other r1 r2 H1 H2 H3 H4.
    eexists. by eapply replay_pair_ok.
Qed.

Lemma verdict_score_total_witness :
  verdict_score (lit "maybe") = (1 / 2)%R
  /\ exists d',
       replay_pair [lit "maybe"; lit ""]
         (0, <[lit "y" := 1200%R]> (<[lit "x" := 1200%R]> ∅))
         ({| combination := lit "x"; raw_output := [] |},
          {| combination := lit "y"; raw_output := [] |})
       = Ok (2, d').
Proof.
  destruct (verdict_score_total (lit "maybe")) as [Hv Hr]. split.
  - destruct Hv as [[H _]|[[H _]|(_ & _ & H)]];
      [discriminate H|discriminate H|exact H].
  - apply (Hr [lit "maybe"; lit ""] 0
             (<[lit "y" := 1200%R]> (<[lit "x" := 1200%R]> ∅))
             {| combination := lit "x"; raw_output := [] |}
             {| combination := lit "y"; raw_output := [] |}
             (lit "") 1200%R 1200%R); reflexivity.
Defined.

(** ** The pair generator *)

Lemma comb_1 (n : nat) : Py.comb n 1 = n.
Proof.
  induction n as [|n IH]; simpl; [done|].
  rewrite IH. destruct n; simpl; lia.
Qed.

Lemma comb_2_double (n : nat) : 2 * Py.comb n 2 = n * (n - 1).
Proof.
  induction n as [|n IH]; [done|].
  change (Py.comb (S n) 2) with (Py.comb n 1 + Py.comb n 2).
  rewrite comb_1. destruct n as [|m]; [done|].
  replace (S (S m) - 1) with (S m) by lia.
  replace (S m - 1) with m in IH by lia. nia.
Qed.

Lemma length_combinations2 {A : Type} (l : list A) :
  length (Py.combinations2 l) = Py.comb (length l) 2.
Proof.
  induction l as [|x l IH]; [done|].
  simpl Py.combinations2. rewrite length_app, length_fmap, IH.
  change (Py.comb (length (x :: l)) 2)
    with (Py.comb (length l) 1 + Py.comb (length l) 2).
  by rewrite comb_1.
Qed.

(** The enumeration spelled out by index: for every position [i] in
    order, the element at [i] paired with each later element in order. *)
Lemma combinations2_by_index {A : Type} (l : list A) :
  Py.combinations2 l = mjoin (imap (fun i x => pair x <$> drop (S i) l) l).
Proof.
  induction l as [|x l IH]; [done|].
  simpl Py.combinations2. rewrite imap_cons. simpl mjoin.
  rewrite drop_0. f_equal. rewrite IH. f_equal.
Qed.

Lemma combinations2_elem {A : Type} (l : list A) (x y : A) :
  (x, y) ∈ Py.combinations2 l ->
  exists i j, i < j /\ l !! i = Some x /\ l !! j = Some y.
Proof.
  induction l as [|a l IH]; simpl; [by intros ?%elem_of_nil|].
  rewrite elem_of_app. intros [H|H].
  - apply list_elem_of_fmap in H as (b & [= -> ->] & Hb).
    apply list_elem_of_lookup in Hb as [j Hj].
    exists 0, (S j). split; [lia|]. by split.
  - destruct (IH H) as (i & j & Hij & Hi & Hj).
    exists (S i), (S j). split; [lia|]. by split.
Qed.

Lemma foldl_append_pair (self : OpenAIEloEvaluatorConfig) (test_case : str)
    (pairs : list (ExperimentResult * ExperimentResult))
    (acc : list (list ChatMessage)) :
  foldl (append_pair self test_case) acc pairs
  = acc ++ (pairs ≫= requests_of_pair self test_case).
Proof.
  revert acc. induction pairs as [|[result1 result2] pairs IH]; intros acc.
  - simpl. by rewrite app_nil_r.
  - simpl foldl. rewrite IH. unfold append_pair.
    rewrite bind_cons. unfold requests_of_pair at 2. simpl.
    by rewrite <- !app_assoc.
Qed.

Lemma append_group_app (self : OpenAIEloEvaluatorConfig)
    (acc : list (list ChatMessage)) (g : GroupedExperimentResult) :
  append_group self acc g = acc ++ requests_of_group self g.
Proof. unfold append_group. apply foldl_append_pair. Qed.

Lemma foldl_append_group (self : OpenAIEloEvaluatorConfig)
    (groups : list GroupedExperimentResult) (acc : list (list ChatMessage)) :
  foldl (append_group self) acc groups
  = acc ++ (groups ≫= requests_of_group self).
Proof.
  revert acc. induction groups as [|g groups IH]; intros acc.
  - simpl. by rewrite app_nil_r.
  - simpl foldl. rewrite IH, append_group_app, bind_cons.
    by rewrite <- app_assoc.
Qed.

Lemma build_message_batches_closed (self : OpenAIEloEvaluatorConfig)
    (e : Experiment) :
  build_message_batches self e
  = group_experiment_results e ≫= requests_of_group self.
Proof. unfold build_message_batches. by rewrite foldl_append_group. Qed.

Lemma length_requests_of_group (self : OpenAIEloEvaluatorConfig)
    (g : GroupedExperimentResult) :
  length (requests_of_group self g)
  = 2 * Py.comb (length (experiment_results g)) 2.
Proof.
  unfold requests_of_group. rewrite <- length_combinations2.
  induction (Py.combinations2 (experiment_results g)) as [|p l IH];
    [done|].
  rewrite bind_cons, length_app, IH. simpl. lia.
Qed.

Lemma length_build_message_batches (self : OpenAIEloEvaluatorConfig)
    (e : Experiment) :
  length (build_message_batches self e) = total_rounds e.
Proof.
  rewrite build_message_batches_closed. unfold total_rounds.
  induction (group_experiment_results e) as [|g groups IH]; [done|].
  rewrite bind_cons, length_app, IH, length_requests_of_group.
  rewrite fmap_cons. simpl sum_list. lia.
Qed.

(** C5.  A group of [n] results has [comb(n, 2)] pairs, enumerated by
    position (each result with every later one, in order), and contributes
    [n * (n - 1)] requests, two per pair, the A-order request then the
    B-order request; a group of at most one result contributes none, and
    the replay passes over it without raising; and [total_rounds] is the
    length of [message_batches]. *)
Theorem pair_generator_counts (self : OpenAIEloEvaluatorConfig)
    (e : Experiment) (g : GroupedExperimentResult)
    (message_batches : list (list ChatMessage)) :
  let n := length (experiment_results g) in
  length (Py.combinations2 (experiment_results g)) = Py.comb n 2
  /\ Py.combinations2 (experiment_results g)
     = mjoin (imap (fun i x => pair x <$> drop (S i) (experiment_results g))
                (experiment_results g))
  /\ append_group self message_batches g
     = message_batches ++ requests_of_group self g
  /\ length (requests_of_group self g) = n * (n - 1)
  /\ (n <= 1 ->
      append_group self message_batches g = message_batches
      /\ forall responses st, replay_group responses st g = Ok st)
  /\ build_message_batches self e
     = group_experiment_results e ≫= requests_of_group self
  /\ total_rounds e = length (build_message_batches self e).
Proof.
  intros n. split; [apply length_combinations2|].
  split; [apply combinations2_by_index|].
  split; [apply append_group_app|].
  split; [rewrite length_requests_of_group; apply comb_2_double|].
  split.
  - intros Hn.
    assert (Py.combinations2 (experiment_results g) = []) as Hnone.
    { subst n. by destruct (experiment_results g) as [|? [|? ?]];
        [| |simpl in Hn; lia]. }
    split.
    + rewrite append_group_app. unfold requests_of_group.
      rewrite Hnone. apply app_nil_r.
    + intros responses st. unfold replay_group. by rewrite Hnone.
  - split; [apply build_message_batches_closed|].
    symmetry. apply length_build_message_batches.
Qed.

Lemma pair_generator_counts_witness :
  length (requests_of_group TestData.config TestData.ger1) = 3 * (3 - 1)
  /\ append_group TestData.config [] TestData.lonely = []
  /\ total_rounds TestData.create_test_data_v2
     = length (build_message_batches TestData.config
                 TestData.create_test_data_v2).
Proof.
  destruct (pair_generator_counts TestData.config
              TestData.create_test_data_v2 TestData.ger1 [])
    as (_ & _ & _ & Hlen & _ & _ & Htotal).
  destruct (pair_generator_counts TestData.config
              TestData.create_test_data_v2 TestData.lonely [])
    as (_ & _ & _ & _ & Hfew & _).
  split; [exact Hlen|]. split; [|exact Htotal].
  apply Hfew. simpl. lia.
Defined.

Example total_rounds_test_data :
  total_rounds TestData.create_test_data_v2 = 12.
Proof. reflexivity. Qed.

(** ** The replay of the verdicts *)

Lemma for_each_cons {A S : Type} (body : S -> A -> res S) (x : A)
    (l : list A) (s : S) :
  for_each body s (x :: l) = (s' ← body s x; for_each body s' l).
Proof. reflexivity. Qed.

Lemma for_each_app {A S : Type} (body : S -> A -> res S) (l1 l2 : list A)
    (s : S) :
  for_each body s (l1 ++ l2) = (s' ← for_each body s l1; for_each body s' l2).
Proof.
  revert s. induction l1 as [|x l1 IH]; intros s; [done|].
  simpl. destruct (body s x) as [s'|e]; simpl; [apply IH|done].
Qed.

Lemma for_each_nested {A B S : Type} (body : S -> B -> res S)
    (f : A -> list B) (l : list A) (s : S) :
  for_each (fun s x => for_each body s (f x)) s l
  = for_each body s (l ≫= f).
Proof.
  revert s. induction l as [|x l IH]; intros s; [done|].
  rewrite bind_cons, for_each_app. simpl.
  destruct (for_each body s (f x)) as [s'|e]; simpl; [apply IH|done].
Qed.

Lemma for_each_fmap {A B S : Type} (body : S -> B -> res S) (f : A -> B)
    (l : list A) (s : S) :
  for_each body s (f <$> l) = for_each (fun s x => body s (f x)) s l.
Proof.
  revert s. induction l as [|x l IH]; intros s; [done|].
  simpl. destruct (body s (f x)) as [s'|e]; simpl; [apply IH|done].
Qed.

Lemma replay_pair_keys (responses : list str) (st : nat * gmap str R)
    (p : ExperimentResult * ExperimentResult) :
  replay_pair responses st p = replay_keys responses st (keys_of_pair p).
Proof. by destruct st, p. Qed.

Lemma for_each_ext {A S : Type} (body body' : S -> A -> res S) (l : list A)
    (s : S) :
  (forall s x, body s x = body' s x) ->
  for_each body s l = for_each body' s l.
Proof.
  intros Hext. revert s. induction l as [|x l IH]; intros s; [done|].
  simpl. rewrite Hext. destruct (body' s x); simpl; [apply IH|done].
Qed.

Lemma replay_group_keys (responses : list str) (st : nat * gmap str R)
    (g : GroupedExperimentResult) :
  replay_group responses st g
  = for_each (replay_keys responses) st
      (keys_of_pair <$> Py.combinations2 (experiment_results g)).
Proof.
  unfold replay_group. rewrite for_each_fmap.
  apply for_each_ext. intros s p. apply replay_pair_keys.
Qed.

Lemma replay_schedule (responses : list str) (d : gmap str R)
    (e : Experiment) :
  replay responses d e
  = (st ← for_each (replay_keys responses) (0, d) (schedule e); Ok st.2).
Proof.
  unfold replay, schedule. f_equal.
  rewrite <- for_each_nested.
  apply for_each_ext. intros s g. apply replay_group_keys.
Qed.

(** What one step does to the state when it returns. *)
Lemma replay_keys_inv (responses : list str) (idx idx' : nat)
    (d d' : gmap str R) (k1 k2 : str) :
  replay_keys responses (idx, d) (k1, k2) = Ok (idx', d') ->
  exists c1 c2 r1 r2,
    responses !! idx = Some c1 /\ responses !! (idx + 1) = Some c2
    /\ d !! k1 = Some r1 /\ d !! k2 = Some r2
    /\ idx' = idx + 1 + 1
    /\ d' = <[k2 := (update_elo r1 r2 (verdict_score c1)).2]>
              (<[k1 := (update_elo r1 r2 (verdict_score c1)).1]> d).
Proof.
  unfold replay_keys, replay_pair, getindex, getitem. simpl.
  destruct (responses !! idx) as [c1|]; simpl; [|done].
  destruct (responses !! (idx + 1)) as [c2|]; simpl; [|done].
  destruct (d !! k1) as [r1|]; simpl; [|done].
  destruct (d !! k2) as [r2|]; simpl; [|done].
  intros [= <- <-]. by exists c1, c2, r1, r2.
Qed.

Lemma replay_keys_frame (responses : list str) (idx idx' : nat)
    (d d' : gmap str R) (k1 k2 k : str) :
  replay_keys responses (idx, d) (k1, k2) = Ok (idx', d') ->
  dom d' = dom d /\ (k ≠ k1 -> k ≠ k2 -> d' !! k = d !! k).
Proof.
  intros (c1 & c2 & r1 & r2 & _ & _ & H1 & H2 & _ & ->)%replay_keys_inv.
  split.
  - rewrite !dom_insert_lookup_L; [done|by eexists|].
    apply lookup_insert_is_Some'. right. by eexists.
  - intros Hk1 Hk2. by rewrite !lookup_insert_ne.
Qed.

Lemma replay_run_frame (responses : list str) (matches : list (str * str))
    (idx idx' : nat) (d d' : gmap str R) (k : str) :
  for_each (replay_keys responses) (idx, d) matches = Ok (idx', d') ->
  idx' = idx + 2 * length matches
  /\ dom d' = dom d
  /\ (Forall (fun ks => k ≠ ks.1 /\ k ≠ ks.2) matches -> d' !! k = d !! k).
Proof.
  revert idx d. induction matches as [|[k1 k2] matches IH]; intros idx d.
  - simpl. intros [= <- <-]. split; [lia|]. by split.
  - rewrite for_each_cons.
    destruct (replay_keys responses (idx, d) (k1, k2)) as [[idx1 d1]|]
      eqn:Hstep; simpl; [|done].
    intros Hrest. destruct (IH _ _ Hrest) as (-> & Hdom & Hk).
    pose proof (replay_keys_frame _ _ _ _ _ _ _ k Hstep) as [Hdom1 Hk1].
    apply replay_keys_inv in Hstep as (_ & _ & _ & _ & _ & _ & _ & _ & -> & _).
    split; [simpl length; lia|]. split; [congruence|].
    intros [[? ?] Hall]%Forall_cons. simpl in *.
    rewrite Hk, Hk1; done.
Qed.

Lemma replay_keys_ok (responses : list str) (idx : nat) (d : gmap str R)
    (k1 k2 c1 c2 : str) (r1 r2 : R) :
  responses !! idx = Some c1 ->
  responses !! (idx + 1) = Some c2 ->
  d !! k1 = Some r1 ->
  d !! k2 = Some r2 ->
  replay_keys responses (idx, d) (k1, k2)
  = Ok (idx + 1 + 1,
        <[k2 := (update_elo r1 r2 (verdict_score c1)).2]>
          (<[k1 := (update_elo r1 r2 (verdict_score c1)).1]> d)).
Proof.
  intros H1 H2 H3 H4. unfold replay_keys.
  by rewrite (replay_pair_ok _ _ _ _ _ c1 c2 r1 r2).
Qed.

(** The replay returns normally as soon as there are enough responses and
    every treatment that plays is rated. *)
Lemma replay_run_ok (responses : list str) (matches : list (str * str))
    (idx : nat) (d : gmap str R) :
  idx + 2 * length matches <= length responses ->
  Forall (fun ks => ks.1 ∈ dom d /\ ks.2 ∈ dom d) matches ->
  exists d', for_each (replay_keys responses) (idx, d) matches
             = Ok (idx + 2 * length matches, d').
Proof.
  revert idx d. induction matches as [|[k1 k2] matches IH]; intros idx d.
  - intros _ _. exists d. simpl. do 2 f_equal. lia.
  - simpl length. intros Hlen [[Hk1 Hk2] Hall]%Forall_cons. simpl in Hk1, Hk2.
    apply elem_of_dom in Hk1 as [r1 Hr1]. apply elem_of_dom in Hk2 as [r2 Hr2].
    destruct (lookup_lt_is_Some_2 responses idx) as [c1 Hc1]; [lia|].
    destruct (lookup_lt_is_Some_2 responses (idx + 1)) as [c2 Hc2]; [lia|].
    rewrite for_each_cons.
    rewrite (replay_keys_ok _ _ _ _ _ c1 c2 r1 r2) by done. simpl.
    set (d1 := <[k2 := _]> _).
    destruct (IH (idx + 1 + 1) d1) as [d' Hd']; [lia| |].
    { eapply Forall_impl; [exact Hall|]. intros [a b] [Ha Hb]. simpl in *.
      assert (dom d1 = dom d) as ->; [|done].
      unfold d1. rewrite !dom_insert_lookup_L; [done|by eexists|].
      apply lookup_insert_is_Some'. right. by eexists. }
    exists d'. rewrite Hd'. do 2 f_equal. lia.
Qed.

(** ** The table of ratings at the start *)

Lemma init_ratings_lookup_from (cams : list CombinationAggregatedMetrics)
    (d : gmap str R) (k : str) :
  foldl (fun d combo => <[combo_key combo := 1200%R]> d) d cams !! k
  = if decide (k ∈ combo_key <$> cams) then Some 1200%R else d !! k.
Proof.
  revert d. induction cams as [|combo cams IH]; intros d.
  - rewrite decide_False; [done|]. apply not_elem_of_nil.
  - simpl foldl. rewrite IH, fmap_cons.
    destruct (decide (k ∈ combo_key <$> cams)) as [Hin|Hnin].
    + rewrite decide_True; [done|]. by apply list_elem_of_further.
    + destruct (decide (k = combo_key combo)) as [->|Hne].
      * rewrite lookup_insert_eq, decide_True; [done|]. apply list_elem_of_here.
      * rewrite lookup_insert_ne by done. rewrite decide_False; [done|].
        intros [?|?]%elem_of_cons; done.
Qed.

Lemma init_ratings_lookup (cams : list CombinationAggregatedMetrics)
    (k : str) :
  init_ratings cams !! k
  = if decide (k ∈ combo_key <$> cams) then Some 1200%R else None.
Proof.
  unfold init_ratings. rewrite init_ratings_lookup_from.
  by rewrite lookup_empty.
Qed.

Lemma init_ratings_listed (cams : list CombinationAggregatedMetrics)
    (combo : CombinationAggregatedMetrics) :
  combo ∈ cams -> init_ratings cams !! combo_key combo = Some 1200%R.
Proof.
  intros Hin. rewrite init_ratings_lookup, decide_True; [done|].
  by apply list_elem_of_fmap_2.
Qed.

(** ** The write-back *)

Lemma attach_rating_ok (d : gmap str R) (combo : CombinationAggregatedMetrics)
    (rating : R) :
  d !! combo_key combo = Some rating ->
  attach_rating d combo = Ok (with_rating rating combo).
Proof.
  intros Hk. unfold attach_rating, getitem, with_rating. rewrite Hk. simpl.
  by destruct (evaluator_outputs combo) as [[|? ?]|].
Qed.

(** The last loop cannot raise when every listed key is rated, and then
    it treats every record alike. *)
Lemma aggregate_ok (d : gmap str R)
    (cams : list CombinationAggregatedMetrics) :
  Forall (fun combo => combo_key combo ∈ dom d) cams ->
  aggregate d cams
  = Ok ((fun combo => with_rating (default 0%R (d !! combo_key combo)) combo)
        <$> cams).
Proof.
  induction cams as [|combo cams IH]; [done|].
  intros [[rating Hk]%elem_of_dom Hall]%Forall_cons.
  simpl. rewrite (attach_rating_ok _ _ rating Hk). simpl.
  rewrite (IH Hall). simpl. by rewrite Hk.
Qed.

Lemma dom_init_ratings (cams : list CombinationAggregatedMetrics) (k : str) :
  k ∈ dom (init_ratings cams) <-> k ∈ combo_key <$> cams.
Proof.
  rewrite elem_of_dom, init_ratings_lookup.
  case_decide; split; done || by intros [? ?].
Qed.

(** The shape of a call on one experiment that returns: the replay gave a
    final table, every listed key is in it, and the experiment that
    results differs from the given one by one more output per record. *)
Lemma evaluate_ok_inv (self : OpenAIEloEvaluatorConfig) (pc : Dispatcher)
    (e : Experiment) (out : list Experiment) :
  evaluate_based_on_all_results self pc [e] = Ok out ->
  exists T,
    final_ratings self pc e = Ok T
    /\ dom T = dom (init_ratings (combination_aggregated_metrics e))
    /\ out = [ {| group_experiment_results := group_experiment_results e;
                  combination_aggregated_metrics :=
                    (fun combo =>
                       with_rating (default 0%R (T !! combo_key combo)) combo)
                    <$> combination_aggregated_metrics e |} ].
Proof.
  unfold evaluate_based_on_all_results, final_ratings.
  destruct (replay _ _ e) as [T|] eqn:Hreplay; simpl; [|done].
  assert (dom T = dom (init_ratings (combination_aggregated_metrics e)))
    as Hdom.
  { rewrite replay_schedule in Hreplay.
    destruct (for_each _ _ (schedule e)) as [[idx' d']|] eqn:Hrun;
      simpl in Hreplay; [|done].
    injection Hreplay as <-.
    by apply (replay_run_frame _ _ _ _ _ _ []) in Hrun as (_ & ? & _). }
  rewrite aggregate_ok.
  - simpl. intros [= <-]. by exists T.
  - apply Forall_forall. intros combo Hin. rewrite Hdom.
    apply dom_init_ratings. by apply list_elem_of_fmap_2.
Qed.

Lemma evaluate_returns (self : OpenAIEloEvaluatorConfig) (pc : Dispatcher)
    (e : Experiment) :
  total_rounds e
  <= length (pc (build_message_batches self e) (openai_model_name self)) ->
  Forall (fun ks => ks.1 ∈ combo_key <$> combination_aggregated_metrics e
                    /\ ks.2 ∈ combo_key <$> combination_aggregated_metrics e)
    (schedule e) ->
  exists out, evaluate_based_on_all_results self pc [e] = Ok out.
Proof.
  intros Hlen Hkeys.
  set (responses :=
         pc (build_message_batches self e) (openai_model_name self)) in *.
  assert (2 * length (schedule e) = total_rounds e) as Hsched.
  { rewrite <- (length_build_message_batches self).
    rewrite build_message_batches_closed.
    unfold schedule.
    induction (group_experiment_results e) as [|g l IH]; [done|].
    rewrite !bind_cons, !length_app, <- IH, length_fmap.
    rewrite length_requests_of_group, length_combinations2. lia. }
  destruct (replay_run_ok responses (schedule e) 0
              (init_ratings (combination_aggregated_metrics e)))
    as [T HT]; [lia| |].
  { eapply Forall_impl; [exact Hkeys|]. intros ks [H1 H2].
    by rewrite !dom_init_ratings. }
  unfold evaluate_based_on_all_results. fold responses.
  rewrite replay_schedule, HT. simpl.
  rewrite aggregate_ok; [by eexists|].
  apply Forall_forall. intros combo Hin.
  apply (replay_run_frame _ _ _ _ _ _ []) in HT as (_ & -> & _).
  apply dom_init_ratings. by apply list_elem_of_fmap_2.
Qed.

Lemma final_ratings_idle (self : OpenAIEloEvaluatorConfig) (pc : Dispatcher)
    (e : Experiment) (T : gmap str R) (k : str) :
  final_ratings self pc e = Ok T ->
  ~ plays k e ->
  T !! k = init_ratings (combination_aggregated_metrics e) !! k.
Proof.
  unfold final_ratings. rewrite replay_schedule.
  destruct (for_each _ _ (schedule e)) as [[idx' d']|] eqn:Hrun; simpl;
    [|done].
  intros [= <-] Hidle.
  apply (replay_run_frame _ _ _ _ _ _ k) in Hrun as (_ & _ & Hk).
  apply Hk. apply Forall_forall. intros ks Hin.
  split; intros ->; apply Hidle; exists ks; auto.
Qed.

(** C6.  Every key listed in the aggregated-metrics records is rated
    [1200] when the replay starts, however the groups are made.  A listed
    treatment that plays no match is still rated [1200] in the final table
    and that is the rating written on its record; and an experiment without
    any match (such as a single treatment without opponents) returns with
    [1200] written on every record. *)
Theorem baseline_rating (self : OpenAIEloEvaluatorConfig) (pc : Dispatcher)
    (e : Experiment) (combo : CombinationAggregatedMetrics) :
  combo ∈ combination_aggregated_metrics e ->
  init_ratings (combination_aggregated_metrics e) !! combo_key combo
  = Some 1200%R
  /\ (forall T, final_ratings self pc e = Ok T ->
                ~ plays (combo_key combo) e ->
                T !! combo_key combo = Some 1200%R)
  /\ (forall e', evaluate_based_on_all_results self pc [e] = Ok [e'] ->
                 ~ plays (combo_key combo) e ->
                 with_rating 1200%R combo ∈ combination_aggregated_metrics e')
  /\ (schedule e = [] ->
      evaluate_based_on_all_results self pc [e]
      = Ok [ {| group_experiment_results := group_experiment_results e;
                combination_aggregated_metrics :=
                  with_rating 1200%R <$> combination_aggregated_metrics e |} ]).
Proof.
  intros Hin.
  pose proof (init_ratings_listed _ _ Hin) as Hinit.
  split; [exact Hinit|]. split; [|split].
  - intros T HT Hidle. by rewrite (final_ratings_idle _ _ _ _ _ HT Hidle).
  - intros e' Hout Hidle.
    apply evaluate_ok_inv in Hout as (T & HT & _ & [= ->]). simpl.
    apply list_elem_of_fmap. exists combo. split; [|done].
    by rewrite (final_ratings_idle _ _ _ _ _ HT Hidle), Hinit.
  - intros Hnone. unfold evaluate_based_on_all_results.
    rewrite replay_schedule, Hnone. simpl.
    rewrite aggregate_ok.
    + simpl. do 3 f_equal. apply list_fmap_ext. intros i c Hc.
      rewrite (init_ratings_listed _ c); [done|].
      by eapply list_elem_of_lookup_2.
    + apply Forall_forall. intros c Hc.
      apply dom_init_ratings. by apply list_elem_of_fmap_2.
Qed.

(** C9.  On a list that does not hold exactly one experiment the evaluator
    returns at once and the list is as it was. *)
Theorem evaluate_not_single (self : OpenAIEloEvaluatorConfig)
    (pc : Dispatcher) (experiment : list Experiment) :
  length experiment ≠ 1 ->
  evaluate_based_on_all_results self pc experiment = Ok experiment.
Proof.
  intros Hlen. destruct experiment as [|e0 [|e1 rest]]; done.
Qed.

Lemma evaluate_not_single_witness :
  evaluate_based_on_all_results TestData.config (TestData.always "A") []
  = Ok []
  /\ evaluate_based_on_all_results TestData.config (TestData.always "A")
       [TestData.create_test_data_v2; TestData.create_test_data_v2]
     = Ok [TestData.create_test_data_v2; TestData.create_test_data_v2].
Proof.
  split.
  - apply (evaluate_not_single TestData.config (TestData.always "A") []).
    simpl. lia.
  - apply (evaluate_not_single TestData.config (TestData.always "A")
             [TestData.create_test_data_v2; TestData.create_test_data_v2]).
    simpl. lia.
Defined.

Lemma baseline_rating_witness :
  init_ratings [TestData.cam1] !! combo_key TestData.cam1 = Some 1200%R
  /\ evaluate_based_on_all_results TestData.config (TestData.always "A")
       [TestData.single]
     = Ok [ {| group_experiment_results := [TestData.lonely];
               combination_aggregated_metrics :=
                 [with_rating 1200%R TestData.cam1] |} ].
Proof.
  destruct (baseline_rating TestData.config (TestData.always "A")
              TestData.single TestData.cam1) as (H1 & _ & _ & H4).
  - apply list_elem_of_here.
  - split; [exact H1|]. apply H4. reflexivity.
Defined.

(** C7.  When the evaluator returns on one experiment, the groups are as
    they were and every aggregated-metrics record has the outputs it had
    (none, when the list was absent) followed by one output named
    "openai_elo_evaluator" whose result is the final rating of the record's
    key; a second run on the outcome leaves that output in place and puts
    one more after it. *)
Theorem aggregator_appends (self : OpenAIEloEvaluatorConfig)
    (pc : Dispatcher) (e : Experiment) (out : list Experiment) :
  evaluate_based_on_all_results self pc [e] = Ok out ->
  exists T e',
    final_ratings self pc e = Ok T
    /\ out = [e']
    /\ group_experiment_results e' = group_experiment_results e
    /\ length (combination_aggregated_metrics e')
       = length (combination_aggregated_metrics e)
    /\ (forall i combo,
          combination_aggregated_metrics e !! i = Some combo ->
          exists rating combo',
            T !! combo_key combo = Some rating
            /\ combination_aggregated_metrics e' !! i = Some combo'
            /\ combo_key combo' = combo_key combo
            /\ cam_experiment_results combo' = cam_experiment_results combo
            /\ aggregated_metrics combo' = aggregated_metrics combo
            /\ evaluator_outputs combo'
               = Some (default [] (evaluator_outputs combo)
                       ++ [ {| name := lit "openai_elo_evaluator";
                               result := rating |} ]))
    /\ (forall pc' out',
          evaluate_based_on_all_results self pc' out = Ok out' ->
          exists T' e'',
            final_ratings self pc' e' = Ok T'
            /\ out' = [e'']
            /\ forall i combo,
                 combination_aggregated_metrics e !! i = Some combo ->
                 exists rating rating' combo'',
                   T !! combo_key combo = Some rating
                   /\ T' !! combo_key combo = Some rating'
                   /\ combination_aggregated_metrics e'' !! i = Some combo''
                   /\ evaluator_outputs combo''
                      = Some (default [] (evaluator_outputs combo)
                              ++ [ {| name := lit "openai_elo_evaluator";
                                      result := rating |};
                                   {| name := lit "openai_elo_evaluator";
                                      result := rating' |} ])).
Proof.
  intros Hout.
  apply evaluate_ok_inv in Hout as (T & HT & Hdom & ->).
  assert (forall i combo,
            combination_aggregated_metrics e !! i = Some combo ->
            exists rating, T !! combo_key combo = Some rating) as Hrated.
  { intros i combo Hi. apply elem_of_dom. rewrite Hdom.
    apply dom_init_ratings, list_elem_of_fmap_2.
    by eapply list_elem_of_lookup_2. }
  eexists T, _. split; [exact HT|]. split; [reflexivity|]. simpl.
  split; [done|]. split; [by rewrite length_fmap|]. split.
  - intros i combo Hi. destruct (Hrated i combo Hi) as [rating Hr].
    exists rating, (with_rating rating combo).
    rewrite list_lookup_fmap, Hi. simpl. rewrite Hr. done.
  - intros pc' out' Hout'.
    apply evaluate_ok_inv in Hout' as (T' & HT' & Hdom' & ->).
    eexists T', _. split; [exact HT'|]. split; [reflexivity|]. simpl.
    intros i combo Hi. destruct (Hrated i combo Hi) as [rating Hr].
    assert (exists rating', T' !! combo_key combo = Some rating')
      as [rating' Hr'].
    { apply elem_of_dom. rewrite Hdom'. simpl.
      apply dom_init_ratings. rewrite <- list_fmap_compose.
      apply (list_elem_of_fmap_2' _ _ combo); [|done].
      by eapply list_elem_of_lookup_2. }
    exists rating, rating', (with_rating rating' (with_rating rating combo)).
    rewrite !list_lookup_fmap, Hi. simpl. rewrite Hr, Hr'. simpl.
    repeat split; try done. by rewrite <- app_assoc.
Qed.

(** ** The B-order verdict in the replay *)

(** A step of the replay reads the response at [idx] and only checks that
    there is one at [idx + 1]. *)
Lemma replay_keys_b_order (responses responses' : list str) (idx : nat)
    (d : gmap str R) (ks : str * str) :
  length responses = length responses' ->
  responses !! idx = responses' !! idx ->
  replay_keys responses (idx, d) ks = replay_keys responses' (idx, d) ks.
Proof.
  intros Hlen Hidx. unfold replay_keys, replay_pair, getindex. simpl.
  rewrite <- Hidx. destruct (responses !! idx) as [c1|]; simpl; [|done].
  destruct (responses !! (idx + 1)) as [c2|] eqn:H2.
  - destruct (lookup_lt_is_Some_2 responses' (idx + 1)) as [c2' ->]; [|done].
    rewrite <- Hlen. apply lookup_lt_is_Some_1. by eexists.
  - apply lookup_ge_None in H2. rewrite Hlen in H2.
    apply lookup_ge_None in H2. by rewrite H2.
Qed.

Lemma replay_run_b_order (responses responses' : list str)
    (matches : list (str * str)) (j : nat) (d : gmap str R) :
  length responses = length responses' ->
  (forall i, responses !! (2 * i) = responses' !! (2 * i)) ->
  for_each (replay_keys responses) (2 * j, d) matches
  = for_each (replay_keys responses') (2 * j, d) matches.
Proof.
  intros Hlen Heven. revert j d.
  induction matches as [|[k1 k2] matches IH]; intros j d; [done|].
  rewrite !for_each_cons.
  rewrite (replay_keys_b_order responses responses') by done.
  destruct (replay_keys responses' (2 * j, d) (k1, k2)) as [[idx1 d1]|]
    eqn:Hstep; simpl; [|done].
  apply replay_keys_inv in Hstep as (_ & _ & _ & _ & _ & _ & _ & _ & -> & _).
  replace (2 * j + 1 + 1) with (2 * S j) by lia. apply IH.
Qed.

(** The final table does not depend on the responses at odd positions,
    which are the verdicts of the B-order renderings. *)
Lemma replay_ignores_b_order (responses responses' : list str)
    (d : gmap str R) (e : Experiment) :
  length responses = length responses' ->
  (forall i, responses !! (2 * i) = responses' !! (2 * i)) ->
  replay responses d e = replay responses' d e.
Proof.
  intros Hlen Heven. rewrite !replay_schedule.
  by rewrite (replay_run_b_order responses responses' _ 0).
Qed.

Lemma update_elo_level_win :
  update_elo 1200 1200 1 = (1216%R, 1184%R).
Proof.
  unfold update_elo. rewrite expected_score_same. unfold K.
  f_equal; lra.
Qed.

Lemma duel_schedule :
  schedule TestData.duel
  = [(combination TestData.er1, combination TestData.er3)].
Proof. reflexivity. Qed.

Lemma duel_responses (token : string) :
  TestData.always token
    (build_message_batches TestData.config TestData.duel)
    (openai_model_name TestData.config)
  = [lit token; lit token].
Proof. reflexivity. Qed.

Lemma duel_replay (a_order b_order : str) :
  replay [a_order; b_order]
    (init_ratings (combination_aggregated_metrics TestData.duel))
    TestData.duel
  = Ok (<[combination TestData.er3 :=
            (update_elo 1200 1200 (verdict_score a_order)).2]>
          (<[combination TestData.er1 :=
               (update_elo 1200 1200 (verdict_score a_order)).1]>
             (init_ratings (combination_aggregated_metrics TestData.duel)))).
Proof.
  rewrite replay_schedule, duel_schedule, for_each_cons.
  rewrite (replay_keys_ok _ _ _ _ _ a_order b_order 1200%R 1200%R);
    reflexivity.
Qed.

(** C1, on the code.  Two treatments A and B in one group, the judge
    answering "A" to both renderings: the final table rates A at 1216 and
    B at 1184, which is one win for A and none for B; and the table is the
    same whatever the judge answers to the B-order rendering, whose
    verdict is read and then dropped (see [replay_ignores_b_order]). *)
Theorem duel_always_A :
  exists T,
    final_ratings TestData.config (TestData.always "A") TestData.duel = Ok T
    /\ T !! combination TestData.er1 = Some 1216%R
    /\ T !! combination TestData.er3 = Some 1184%R
    /\ forall b_order,
         replay [lit "A"; b_order]
           (init_ratings (combination_aggregated_metrics TestData.duel))
           TestData.duel
         = Ok T.
Proof.
  eexists. unfold final_ratings.
  rewrite duel_responses, duel_replay. split; [reflexivity|].
  change (verdict_score (lit "A")) with 1%R.
  rewrite update_elo_level_win. simpl. split; [|split].
  - rewrite lookup_insert_ne by done. by rewrite lookup_insert_eq.
  - by rewrite lookup_insert_eq.
  - intros b_order. rewrite duel_replay.
    change (verdict_score (lit "A")) with 1%R.
    by rewrite update_elo_level_win.
Qed.

(** What the evaluator leaves on that experiment. *)
Lemma duel_evaluate :
  evaluate_based_on_all_results TestData.config (TestData.always "A")
    [TestData.duel]
  = Ok [ {| group_experiment_results :=
              group_experiment_results TestData.duel;
            combination_aggregated_metrics :=
              [ with_rating 1216%R TestData.cam1;
                with_rating 1184%R TestData.cam2 ] |} ].
Proof.
  unfold evaluate_based_on_all_results.
  rewrite duel_responses, duel_replay.
  change (verdict_score (lit "A")) with 1%R.
  rewrite update_elo_level_win.
  change (combination_aggregated_metrics TestData.duel)
    with [TestData.cam1; TestData.cam2].
  cbn [mbind res_bind fst snd aggregate].
  rewrite (attach_rating_ok _ TestData.cam1 1216%R).
  2: { change (combo_key TestData.cam1) with (combination TestData.er1).
       rewrite lookup_insert_ne by done. by rewrite lookup_insert_eq. }
  rewrite (attach_rating_ok _ TestData.cam2 1184%R).
  2: { change (combo_key TestData.cam2) with (combination TestData.er3).
       by rewrite lookup_insert_eq. }
  reflexivity.
Qed.

Lemma aggregator_appends_witness :
  exists T e',
    final_ratings TestData.config (TestData.always "A") TestData.duel = Ok T
    /\ length (combination_aggregated_metrics e') = 2
    /\ exists rating combo',
         T !! combo_key TestData.cam2 = Some rating
         /\ combination_aggregated_metrics e' !! 1 = Some combo'
         /\ evaluator_outputs combo'
            = Some [ {| name := lit "openai_elo_evaluator";
                        result := rating |} ].
Proof.
  destruct (aggregator_appends TestData.config (TestData.always "A")
              TestData.duel _ duel_evaluate)
    as (T & e' & HT & _ & _ & Hlen & Hrec & _).
  exists T, e'. split; [exact HT|]. split; [exact Hlen|].
  destruct (Hrec 1 TestData.cam2) as (rating & combo' & H1 & H2 & _ & _ & _ & H3);
    [reflexivity|].
  by exists rating, combo'.
Defined.

(** ** Determinism *)

Lemma init_ratings_keys (cams1 cams2 : list CombinationAggregatedMetrics) :
  combo_key <$> cams1 = combo_key <$> cams2 ->
  init_ratings cams1 = init_ratings cams2.
Proof.
  intros Hkeys. apply map_eq. intros k.
  by rewrite !init_ratings_lookup, Hkeys.
Qed.

Lemma evaluate_via_final_ratings (self : OpenAIEloEvaluatorConfig)
    (pc : Dispatcher) (e : Experiment) :
  evaluate_based_on_all_results self pc [e]
  = (T ← final_ratings self pc e;
     cams ← aggregate T (combination_aggregated_metrics e);
     Ok [ {| group_experiment_results := group_experiment_results e;
             combination_aggregated_metrics := cams |} ]).
Proof. reflexivity. Qed.

(** C8.  The final table is a function of the order of the matches, of the
    listed keys and of the tokens the dispatcher returned: two runs that
    agree on these end with the same table, whatever else differs (the
    dispatcher itself, the configuration, the texts of the outputs); and
    two runs on the same experiment with the same tokens leave the same
    records. *)
Theorem ratings_deterministic (self1 self2 : OpenAIEloEvaluatorConfig)
    (pc1 pc2 : Dispatcher) (e1 e2 : Experiment) :
  schedule e1 = schedule e2 ->
  combo_key <$> combination_aggregated_metrics e1
  = combo_key <$> combination_aggregated_metrics e2 ->
  pc1 (build_message_batches self1 e1) (openai_model_name self1)
  = pc2 (build_message_batches self2 e2) (openai_model_name self2) ->
  final_ratings self1 pc1 e1 = final_ratings self2 pc2 e2
  /\ (e1 = e2 ->
      evaluate_based_on_all_results self1 pc1 [e1]
      = evaluate_based_on_all_results self2 pc2 [e2]).
Proof.
  intros Hsched Hkeys Hresp.
  assert (final_ratings self1 pc1 e1 = final_ratings self2 pc2 e2) as Hfinal.
  { unfold final_ratings. rewrite !replay_schedule.
    by rewrite Hresp, Hsched, (init_ratings_keys _ _ Hkeys). }
  split; [exact Hfinal|].
  intros <-. by rewrite !evaluate_via_final_ratings, Hfinal.
Qed.

Lemma ratings_deterministic_witness :
  final_ratings TestData.config (TestData.always "A")
    TestData.create_test_data_v2
  = final_ratings TestData.config
      (fun _ _ => replicate 12 (lit "A")) TestData.create_test_data_v2
  /\ evaluate_based_on_all_results TestData.config (TestData.always "A")
       [TestData.create_test_data_v2]
     = evaluate_based_on_all_results TestData.config
         (fun _ _ => replicate 12 (lit "A")) [TestData.create_test_data_v2].
Proof.
  destruct (ratings_deterministic TestData.config TestData.config
              (TestData.always "A") (fun _ _ => replicate 12 (lit "A"))
              TestData.create_test_data_v2 TestData.create_test_data_v2)
    as [H1 H2]; [reflexivity|reflexivity|reflexivity|].
  split; [exact H1|]. apply H2. reflexivity.
Defined.

(** ** The matcher *)

Lemma strip_prefix_Some (w s s' : str) :
  Re.strip_prefix w s = Some s' <-> s = w ++ s'.
Proof.
  revert s. induction w as [|a w IH]; intros s.
  - simpl. split; [by intros [= ->]|by intros ->].
  - destruct s as [|b s]; simpl; [done|].
    destruct (N.eqb_spec a b) as [->|Hne].
    + rewrite IH. split; [by intros ->|by intros [= ->]].
    + split; [done|]. intros [= ? ?]. done.
Qed.

Lemma orelse_None_r {A : Type} (x : option A) : Re.orelse x None = x.
Proof. by destruct x. Qed.

Lemma exec_star_nil {A : Type} (greedy : bool) (p : N -> bool)
    (g : option str) (k : str -> option str -> option A) :
  Re.exec (Re.Star greedy p) [] g k = k [] g.
Proof. reflexivity. Qed.

Lemma exec_star_cons {A : Type} (greedy : bool) (p : N -> bool) (c : N)
    (s : str) (g : option str) (k : str -> option str -> option A) :
  Re.exec (Re.Star greedy p) (c :: s) g k
  = if p c then
      if greedy then Re.orelse (Re.exec (Re.Star greedy p) s g k) (k (c :: s) g)
      else Re.orelse (k (c :: s) g) (Re.exec (Re.Star greedy p) s g k)
    else k (c :: s) g.
Proof. reflexivity. Qed.

(** [\s*] before something that cannot start with white space: all the
    white space is taken. *)
Lemma exec_star_space {A : Type} (s : str) (g : option str)
    (k : str -> option str -> option A) :
  (forall c s', Py.isspace c = true -> k (c :: s') g = None) ->
  Re.exec (Re.Star true Re.space) s g k = k (Py.lstrip s) g.
Proof.
  intros Hk. induction s as [|c s IH]; [done|].
  rewrite exec_star_cons. unfold Re.space at 1. simpl Py.lstrip.
  destruct (Py.isspace c) eqn:Hc; [|done].
  by rewrite IH, (Hk c s Hc), orelse_None_r.
Qed.

(** [c*?]: the shortest run of [c] after which the rest matches. *)
Lemma exec_star_lazy_Some {A : Type} (p : N -> bool) (s : str)
    (g : option str) (k : str -> option str -> option A) (a : A) :
  Re.exec (Re.Star false p) s g k = Some a <->
  exists body rest,
    s = body ++ rest /\ Forall (fun c => p c = true) body
    /\ k rest g = Some a
    /\ forall body' rest',
         s = body' ++ rest' -> length body' < length body ->
         k rest' g = None.
Proof.
  induction s as [|c s IH].
  - rewrite exec_star_nil. split.
    + intros Hk. exists [], []. repeat split; try done.
      intros ? ? _ Hlt. simpl in Hlt. lia.
    + intros (body & rest & Hs & _ & Hk & _).
      symmetry in Hs. apply app_eq_nil in Hs as [-> ->]. done.
  - rewrite exec_star_cons. destruct (p c) eqn:Hc.
    + destruct (k (c :: s) g) as [a0|] eqn:Hk0; simpl.
      * split.
        -- intros [= <-]. exists [], (c :: s). repeat split; try done.
           intros ? ? _ Hlt. simpl in Hlt. lia.
        -- intros (body & rest & Hs & _ & Hk & Hmin).
           destruct body as [|b body].
           ++ simpl in Hs. subst rest. congruence.
           ++ specialize (Hmin [] (c :: s) eq_refl). simpl in Hmin.
              rewrite Hmin in Hk0 by lia. done.
      * rewrite IH. split.
        -- intros (body & rest & -> & Hall & Hk & Hmin).
           exists (c :: body), rest. repeat split; try done.
           { by constructor. }
           intros [|b body'] rest' Hs Hlt.
           ++ simpl in Hs. by subst rest'.
           ++ injection Hs as <- Hs. apply (Hmin body' rest' Hs).
              simpl in Hlt. lia.
        -- intros (body & rest & Hs & Hall & Hk & Hmin).
           destruct body as [|b body].
           ++ simpl in Hs. subst rest. congruence.
           ++ injection Hs as <- Hs. apply Forall_cons in Hall as [_ Hall].
              exists body, rest. repeat split; try done.
              intros body' rest' Hs' Hlt.
              apply (Hmin (c :: body') rest'); [by rewrite Hs'|simpl; lia].
    + split.
      * intros Hk. exists [], (c :: s). repeat split; try done.
        intros ? ? _ Hlt. simpl in Hlt. lia.
      * intros (body & rest & Hs & Hall & Hk & _).
        destruct body as [|b body].
        -- simpl in Hs. by subst rest.
        -- injection Hs as <- Hs. apply Forall_cons in Hall as [Hb _].
           congruence.
Qed.

Lemma exec_star_lazy_None {A : Type} (p : N -> bool) (s : str)
    (g : option str) (k : str -> option str -> option A) :
  Re.exec (Re.Star false p) s g k = None <->
  forall body rest,
    s = body ++ rest -> Forall (fun c => p c = true) body ->
    k rest g = None.
Proof.
  induction s as [|c s IH].
  - rewrite exec_star_nil. split.
    + intros Hk body rest Hs _.
      symmetry in Hs. apply app_eq_nil in Hs as [-> ->]. done.
    + intros H. by apply (H [] []).
  - rewrite exec_star_cons. destruct (p c) eqn:Hc.
    + destruct (k (c :: s) g) as [a0|] eqn:Hk0; simpl.
      * split; [done|]. intros H.
        rewrite (H [] (c :: s)) in Hk0; done.
      * rewrite IH. split.
        -- intros H [|b body] rest Hs Hall.
           ++ simpl in Hs. by subst rest.
           ++ injection Hs as <- Hs. apply Forall_cons in Hall as [_ Hall].
              by apply (H body rest).
        -- intros H body rest Hs Hall.
           apply (H (c :: body) rest); [by rewrite Hs|by constructor].
    + split.
      * intros Hk [|b body] rest Hs Hall.
        -- simpl in Hs. by subst rest.
        -- injection Hs as <- Hs. apply Forall_cons in Hall as [Hb _].
           congruence.
      * intros H. by apply (H [] (c :: s)).
Qed.

Lemma search_unfold (r : Re.regex) (s : str) :
  Re.search r s
  = match match_here r s with
    | Some g => Some g
    | None => match s with [] => None | _ :: s' => Re.search r s' end
    end.
Proof. by destruct s. Qed.

Lemma search_Some (r : Re.regex) (s : str) (a : option str) :
  Re.search r s = Some a <->
  exists pre rest,
    s = pre ++ rest /\ match_here r rest = Some a
    /\ forall pre' rest',
         s = pre' ++ rest' -> length pre' < length pre ->
         match_here r rest' = None.
Proof.
  induction s as [|c s IH]; rewrite search_unfold.
  - destruct (match_here r []) as [a0|] eqn:H0.
    + split.
      * intros [= <-]. exists [], []. repeat split; try done.
        intros ? ? _ Hlt. simpl in Hlt. lia.
      * intros (pre & rest & Hs & Hm & _).
        symmetry in Hs. apply app_eq_nil in Hs as [-> ->]. congruence.
    + split; [done|]. intros (pre & rest & Hs & Hm & _).
      symmetry in Hs. apply app_eq_nil in Hs as [-> ->]. congruence.
  - destruct (match_here r (c :: s)) as [a0|] eqn:H0.
    + split.
      * intros [= <-]. exists [], (c :: s). repeat split; try done.
        intros ? ? _ Hlt. simpl in Hlt. lia.
      * intros (pre & rest & Hs & Hm & Hmin).
        destruct pre as [|b pre].
        -- simpl in Hs. subst rest. congruence.
        -- specialize (Hmin [] (c :: s) eq_refl). simpl in Hmin.
           rewrite Hmin in H0 by lia. done.
    + rewrite IH. split.
      * intros (pre & rest & -> & Hm & Hmin).
        exists (c :: pre), rest. repeat split; try done.
        intros [|b pre'] rest' Hs Hlt.
        -- simpl in Hs. by subst rest'.
        -- injection Hs as <- Hs. apply (Hmin pre' rest' Hs).
           simpl in Hlt. lia.
      * intros (pre & rest & Hs & Hm & Hmin).
        destruct pre as [|b pre].
        -- simpl in Hs. subst rest. congruence.
        -- injection Hs as <- Hs. exists pre, rest. repeat split; try done.
           intros pre' rest' Hs' Hlt.
           apply (Hmin (c :: pre') rest'); [by rewrite Hs'|simpl; lia].
Qed.

Lemma search_None (r : Re.regex) (s : str) :
  Re.search r s = None <->
  forall pre rest, s = pre ++ rest -> match_here r rest = None.
Proof.
  induction s as [|c s IH]; rewrite search_unfold.
  - destruct (match_here r []) as [a0|] eqn:H0.
    + split; [done|]. intros H. rewrite (H [] []) in H0; done.
    + split; [|done]. intros _ pre rest Hs.
      symmetry in Hs. apply app_eq_nil in Hs as [-> ->]. done.
  - destruct (match_here r (c :: s)) as [a0|] eqn:H0.
    + split; [done|]. intros H. rewrite (H [] (c :: s)) in H0; done.
    + rewrite IH. split.
      * intros H [|b pre] rest Hs.
        -- simpl in Hs. by subst rest.
        -- injection Hs as <- Hs. by apply (H pre rest).
      * intros H pre rest Hs. apply (H (c :: pre) rest). by rewrite Hs.
Qed.

(** ** The pattern of the evaluator *)

Lemma pattern_parts :
  pattern
  = Re.Seq (Re.Lit (lit "content:"))
      (Re.Seq (Re.Star true Re.space) (Re.Seq blob tail)).
Proof. reflexivity. Qed.

Lemma tail_Some (post : str) (cap a : option str) :
  Re.exec tail post cap (fun _ g => Some g) = Some a
  <-> closes post /\ a = cap.
Proof.
  unfold closes, tail. change (lit ",") with [44%N].
  destruct post as [|c [|c' post]];
    cbn [Re.exec Re.strip_prefix Re.orelse].
  - split; [intros [= <-]; auto|by intros [_ ->]].
  - destruct (N.eqb_spec 44 c) as [<-|Hc]; cbn [Re.orelse].
    + split; [intros [= <-]; eauto|by intros [_ ->]].
    + destruct (N.eqb_spec c 10) as [->|Hc'].
      * split; [intros [= <-]; auto|by intros [_ ->]].
      * split; [done|]. intros [[[? [= ? ?]]|[?|[= ?]]] _]; done.
  - destruct (N.eqb_spec 44 c) as [<-|Hc]; cbn [Re.orelse].
    + split; [intros [= <-]; eauto|by intros [_ ->]].
    + split; [done|]. intros [[[? [= ? ?]]|[?|?]] _]; done.
Qed.

Lemma tail_None (post : str) (cap : option str) :
  Re.exec tail post cap (fun _ g => Some g) = None <-> ~ closes post.
Proof.
  destruct (Re.exec tail post cap (fun _ g => Some g)) as [a|] eqn:H.
  - apply tail_Some in H as [H _]. split; [done|]. by intros [].
  - split; [|done]. intros _ Hc.
    assert (Re.exec tail post cap (fun _ g => Some g) = Some cap) as H'
      by (by apply tail_Some).
    congruence.
Qed.

Lemma dot_true (c : N) : Re.dot c = true <-> c ≠ 10%N.
Proof.
  unfold Re.dot. destruct (N.eqb_spec c 10); simpl; split; done.
Qed.

Lemma Forall_dot (body : str) :
  Forall (fun c => Re.dot c = true) body <-> Forall (fun c => c ≠ 10%N) body.
Proof. apply Forall_iff. intros c. apply dot_true. Qed.

Lemma take_blob (body post : str) :
  take (length (lit "{" ++ body ++ lit "}" ++ post) - length post)
    (lit "{" ++ body ++ lit "}" ++ post)
  = lit "{" ++ body ++ lit "}".
Proof.
  replace (lit "{" ++ body ++ lit "}" ++ post)
    with ((lit "{" ++ body ++ lit "}") ++ post) by by rewrite <- !app_assoc.
  rewrite length_app.
  replace (length (lit "{" ++ body ++ lit "}") + length post - length post)
    with (length (lit "{" ++ body ++ lit "}")) by lia.
  apply take_app_length.
Qed.

(** The continuation of the lazy star inside the group, at [s2]. *)
Lemma close_blob_Some (s2 rest : str) (g a : option str) :
  Re.exec (Re.Lit (lit "}")) rest g
    (fun s' _ =>
       Re.exec tail s' (Some (take (length s2 - length s') s2))
         (fun _ g => Some g)) = Some a
  <-> exists post,
        rest = lit "}" ++ post /\ closes post
        /\ a = Some (take (length s2 - length post) s2).
Proof.
  cbn [Re.exec].
  destruct (Re.strip_prefix (lit "}") rest) as [post|] eqn:Hp.
  - apply strip_prefix_Some in Hp as ->. rewrite tail_Some. split.
    + intros [Hc ->]. by exists post.
    + intros (post' & [= <-]%(inj (app _)) & Hc & ->). done.
  - split; [done|]. intros (post & Hr & _).
    apply strip_prefix_Some in Hr. congruence.
Qed.

Lemma close_blob_None (s2 rest : str) (g : option str) :
  Re.exec (Re.Lit (lit "}")) rest g
    (fun s' _ =>
       Re.exec tail s' (Some (take (length s2 - length s') s2))
         (fun _ g => Some g)) = None
  <-> forall post, rest = lit "}" ++ post -> ~ closes post.
Proof.
  cbn [Re.exec].
  destruct (Re.strip_prefix (lit "}") rest) as [post|] eqn:Hp.
  - apply strip_prefix_Some in Hp as ->. rewrite tail_None. split.
    + by intros Hc post' [= <-]%(inj (app _)).
    + intros H. by apply H.
  - split; [|done]. intros _ post Hr.
    apply strip_prefix_Some in Hr. congruence.
Qed.

(** The group and what follows it, at the first brace. *)
Lemma blob_tail_Some (s2 : str) (g a : option str) :
  Re.exec (Re.Seq blob tail) s2 g (fun _ g => Some g) = Some a
  <-> exists body post,
        s2 = lit "{" ++ body ++ lit "}" ++ post
        /\ Forall (fun c => c ≠ 10%N) body
        /\ closes post
        /\ a = Some (lit "{" ++ body ++ lit "}")
        /\ forall body' post',
             s2 = lit "{" ++ body' ++ lit "}" ++ post' ->
             length body' < length body -> ~ closes post'.
Proof.
  unfold blob. cbn [Re.exec].
  destruct (Re.strip_prefix (lit "{") s2) as [s3|] eqn:Hp.
  - apply strip_prefix_Some in Hp.
    change (Re.exec (Re.Star false Re.dot) s3 g
              (fun s' g' =>
                 Re.exec (Re.Lit (lit "}")) s' g'
                   (fun s'' _ =>
                      Re.exec tail s''
                        (Some (take (length s2 - length s'') s2))
                        (fun _ g => Some g))) = Some a
            <-> exists body post,
                  s2 = lit "{" ++ body ++ lit "}" ++ post
                  /\ Forall (fun c => c ≠ 10%N) body
                  /\ closes post
                  /\ a = Some (lit "{" ++ body ++ lit "}")
                  /\ forall body' post',
                       s2 = lit "{" ++ body' ++ lit "}" ++ post' ->
                       length body' < length body -> ~ closes post').
    rewrite exec_star_lazy_Some. split.
    + intros (body & rest & -> & Hall & Hk & Hmin).
      apply close_blob_Some in Hk as (post & -> & Hc & ->).
      exists body, post. rewrite Hp, take_blob, <- Forall_dot.
      repeat split; try done.
      intros body' post' [= Hs]%(inj (app _)) Hlt.
      specialize (Hmin body' (lit "}" ++ post') Hs Hlt).
      rewrite close_blob_None in Hmin. by apply Hmin.
    + intros (body & post & Hs & Hall & Hc & -> & Hmin).
      rewrite Hp in Hs. apply (inj (app _)) in Hs as ->.
      exists body, (lit "}" ++ post). rewrite Forall_dot.
      repeat split; try done.
      * apply close_blob_Some. exists post. by rewrite Hp, take_blob.
      * intros body' rest' Hs Hlt. apply close_blob_None.
        intros post' ->. apply (Hmin body' post'); [|done].
        by rewrite Hp, Hs.
  - split; [done|]. intros (body & post & Hs & _).
    apply strip_prefix_Some in Hs. congruence.
Qed.

Lemma blob_tail_None (s2 : str) (g : option str) :
  Re.exec (Re.Seq blob tail) s2 g (fun _ g => Some g) = None
  <-> forall body post,
        s2 = lit "{" ++ body ++ lit "}" ++ post ->
        Forall (fun c => c ≠ 10%N) body -> ~ closes post.
Proof.
  unfold blob. cbn [Re.exec].
  destruct (Re.strip_prefix (lit "{") s2) as [s3|] eqn:Hp.
  - apply strip_prefix_Some in Hp.
    change (Re.exec (Re.Star false Re.dot) s3 g
              (fun s' g' =>
                 Re.exec (Re.Lit (lit "}")) s' g'
                   (fun s'' _ =>
                      Re.exec tail s''
                        (Some (take (length s2 - length s'') s2))
                        (fun _ g => Some g))) = None
            <-> forall body post,
                  s2 = lit "{" ++ body ++ lit "}" ++ post ->
                  Forall (fun c => c ≠ 10%N) body -> ~ closes post).
    rewrite exec_star_lazy_None. split.
    + intros H body post Hs Hall. rewrite Hp in Hs.
      apply (inj (app _)) in Hs as ->.
      apply Forall_dot in Hall.
      specialize (H body (lit "}" ++ post) eq_refl Hall).
      rewrite close_blob_None in H. by apply H.
    + intros H body rest -> Hall. apply close_blob_None. intros post ->.
      apply (H body post); [by rewrite Hp|by apply Forall_dot].
  - split; [|done]. intros _ body post Hs.
    apply strip_prefix_Some in Hs. congruence.
Qed.

Lemma lstrip_split (s : str) :
  exists ws, s = ws ++ Py.lstrip s /\ Forall (fun c => Py.isspace c = true) ws.
Proof.
  induction s as [|c s (ws & Hs & Hall)]; [by exists []|].
  simpl. destruct (Py.isspace c) eqn:Hc.
  - exists (c :: ws). split; [by rewrite Hs at 1|by constructor].
  - by exists [].
Qed.

Lemma lstrip_brace (ws x : str) :
  Forall (fun c => Py.isspace c = true) ws ->
  Py.lstrip (ws ++ lit "{" ++ x) = lit "{" ++ x.
Proof.
  induction 1 as [|c ws Hc _ IH]; [done|].
  simpl. by rewrite Hc.
Qed.

Lemma shorter_prefix {A : Type} (l1 l2 x y : list A) :
  l1 ++ x = l2 ++ y -> length l1 < length l2 -> exists t, l2 = l1 ++ t.
Proof.
  intros Heq Hlt. exists (drop (length l1) l2).
  assert (l1 = take (length l1) l2) as Hl1.
  { rewrite <- (take_app_le l2 y) by lia. rewrite <- Heq.
    by rewrite take_app_length. }
  rewrite Hl1 at 1. by rewrite take_drop.
Qed.

(** The pattern at the head of [s]: the blob with the shortest body. *)
Lemma pattern_here_Some (s : str) (a : option str) :
  match_here pattern s = Some a
  <-> exists ws body post,
        blob_here s ws body post
        /\ a = Some (lit "{" ++ body ++ lit "}")
        /\ forall ws' body' post',
             blob_here s ws' body' post' -> length body <= length body'.
Proof.
  unfold match_here, blob_here. rewrite pattern_parts.
  change (Re.exec
            (Re.Seq (Re.Lit (lit "content:"))
               (Re.Seq (Re.Star true Re.space) (Re.Seq blob tail)))
            s None (fun _ g => Some g))
    with (match Re.strip_prefix (lit "content:") s with
          | Some s1 =>
              Re.exec (Re.Star true Re.space) s1 None
                (fun s2 g2 =>
                   Re.exec (Re.Seq blob tail) s2 g2 (fun _ g => Some g))
          | None => None
          end).
  destruct (Re.strip_prefix (lit "content:") s) as [s1|] eqn:Hp.
  - apply strip_prefix_Some in Hp as ->.
    rewrite exec_star_space.
    2: { intros c s' Hc. apply blob_tail_None.
         intros body post [= -> _] _. done. }
    rewrite blob_tail_Some. split.
    + intros (body & post & Hs & Hall & Hc & -> & Hmin).
      destruct (lstrip_split s1) as (ws & Hs1 & Hws).
      exists ws, body, post. split; [|split; [done|]].
      { split; [|done]. by rewrite Hs1 at 1; rewrite Hs. }
      intros ws' body' post' (->%(inj (app _)) & Hws' & Hall' & Hc').
      rewrite lstrip_brace in Hmin by done.
      destruct (decide (length body <= length body')) as [|Hlt]; [done|].
      destruct (Hmin body' post' eq_refl); [lia|done].
    + intros (ws & body & post & (->%(inj (app _)) & Hws & Hall & Hc)
              & -> & Hmin).
      rewrite lstrip_brace by done.
      exists body, post. repeat split; try done.
      intros body' post' Hs%(inj (app _)) Hlt Hc'.
      destruct (shorter_prefix body' body _ _ (eq_sym Hs) Hlt) as [t ->].
      apply Forall_app in Hall as [Hall' _].
      specialize (Hmin ws body' post').
      rewrite Hs in Hmin. rewrite length_app in Hlt, Hmin.
      assert (length body' + length t <= length body'); [|lia].
      apply Hmin. repeat split; done.
  - split; [done|]. intros (ws & body & post & (Hs & _) & _).
    apply strip_prefix_Some in Hs. congruence.
Qed.

Lemma pattern_here_None (s : str) :
  match_here pattern s = None
  <-> forall ws body post, ~ blob_here s ws body post.
Proof.
  unfold match_here, blob_here. rewrite pattern_parts.
  change (Re.exec
            (Re.Seq (Re.Lit (lit "content:"))
               (Re.Seq (Re.Star true Re.space) (Re.Seq blob tail)))
            s None (fun _ g => Some g))
    with (match Re.strip_prefix (lit "content:") s with
          | Some s1 =>
              Re.exec (Re.Star true Re.space) s1 None
                (fun s2 g2 =>
                   Re.exec (Re.Seq blob tail) s2 g2 (fun _ g => Some g))
          | None => None
          end).
  destruct (Re.strip_prefix (lit "content:") s) as [s1|] eqn:Hp.
  - apply strip_prefix_Some in Hp as ->.
    rewrite exec_star_space.
    2: { intros c s' Hc. apply blob_tail_None.
         intros body post [= -> _] _. done. }
    rewrite blob_tail_None. split.
    + intros H ws body post (->%(inj (app _)) & Hws & Hall & Hc).
      rewrite lstrip_brace in H by done. by apply (H body post).
    + intros H body post Hs Hall Hc.
      destruct (lstrip_split s1) as (ws & Hs1 & Hws).
      apply (H ws body post). split; [|done].
      by rewrite Hs1 at 1; rewrite Hs.
  - split; [|done]. intros _ ws body post (Hs & _).
    apply strip_prefix_Some in Hs. congruence.
Qed.

Lemma test_case_of_cases (g : GroupedExperimentResult) :
  first_blob (group_key g) (test_case_of g)
  \/ (forall pre ws body post, ~ blob_at (group_key g) pre ws body post)
     /\ test_case_of g = [].
Proof.
  unfold test_case_of.
  destruct (Re.search pattern (group_key g)) as [a|] eqn:Hsearch.
  - left. apply search_Some in Hsearch as (pre & rest & Hkey & Hm & Hleft).
    apply pattern_here_Some in Hm as (ws & body & post & Hb & -> & Hshort).
    exists pre, ws, body, post. split; [by exists rest|]. split; [done|].
    intros pre' ws' body' post' (rest' & Hkey' & Hb').
    assert (length pre <= length pre') as Hle.
    { destruct (decide (length pre <= length pre')) as [|Hlt]; [done|].
      assert (match_here pattern rest' = None) as Hnone
        by (apply (Hleft pre' rest' Hkey'); lia).
      rewrite pattern_here_None in Hnone. by destruct (Hnone _ _ _ Hb'). }
    split; [done|]. intros Hlen.
    assert (rest' = rest) as ->.
    { rewrite Hkey in Hkey'.
      apply app_inj_1 in Hkey' as [_ ?]; done. }
    by apply (Hshort ws' body' post').
  - right. split; [|done].
    intros pre ws body post (rest & Hkey & Hb).
    rewrite search_None in Hsearch.
    specialize (Hsearch pre rest Hkey).
    rewrite pattern_here_None in Hsearch. by destruct (Hsearch _ _ _ Hb).
Qed.

(** The task text is shorter than a key that holds a blob, and empty
    otherwise. *)
Lemma test_case_of_not_key (g : GroupedExperimentResult) :
  group_key g ≠ [] -> test_case_of g ≠ group_key g.
Proof.
  intros Hkey Heq.
  destruct (test_case_of_cases g)
    as [(pre & ws & body & post & (rest & Hsplit & Hs & _) & Htext & _)
       |[_ Hnone]].
  - rewrite Heq, Hsplit, Hs in Htext.
    apply (f_equal length) in Htext. rewrite !length_app in Htext.
    change (length (lit "content:")) with 8 in Htext. lia.
  - rewrite Hnone in Heq. by apply Hkey.
Qed.

(** C10.  The text put after "Prompt:" in the two requests of every pair
    of a group is [test_case_of] of the group: the blob [{...}] of the first
    match of the pattern in the group key (the leftmost "content:" label
    that is followed by white space, a brace-delimited text on one line and
    then a comma or the end of the key; from there the shortest such text),
    and the empty string when the key holds no such blob.  It is never
    the key itself, unless the key is empty. *)
Theorem prompt_is_content_blob (self : OpenAIEloEvaluatorConfig)
    (g : GroupedExperimentResult)
    (message_batches : list (list ChatMessage)) :
  let request generation_a generation_b :=
    [ {| role := lit "system"; content := RANKING_SYSTEM_PROMPT |};
      {| role := lit "user";
         content :=
           lit "Task: " ++ Py.strip (input_description self) ++ newline
           ++ indent ++ lit "Prompt: " ++ test_case_of g ++ newline
           ++ indent ++ lit "Generation A: " ++ generation_a ++ newline
           ++ indent ++ lit "Generation B: " ++ generation_b |} ] in
  append_group self message_batches g
  = message_batches
    ++ (p ← Py.combinations2 (experiment_results g);
        [ request (raw_output p.1) (raw_output p.2);
          request (raw_output p.2) (raw_output p.1) ])
  /\ (first_blob (group_key g) (test_case_of g)
      \/ (forall pre ws body post, ~ blob_at (group_key g) pre ws body post)
         /\ test_case_of g = [])
  /\ (group_key g ≠ [] -> test_case_of g ≠ group_key g).
Proof.
  split; [apply append_group_app|].
  split; [apply test_case_of_cases|apply test_case_of_not_key].
Qed.

Lemma prompt_is_content_blob_witness :
  let g :=
    {| group_key :=
         lit "example_id: None, content: {'text': 'Hi, all'}, expected: None";
       experiment_results := [] |} in
  test_case_of g = lit "{'text': 'Hi, all'}"
  /\ first_blob (group_key g) (test_case_of g)
  /\ test_case_of TestData.ger1 = []
  /\ forall pre ws body post,
       ~ blob_at (group_key TestData.ger1) pre ws body post.
Proof.
  intros g. split; [reflexivity|]. split.
  - destruct (prompt_is_content_blob TestData.config g [])
      as (_ & [H|[_ H]] & _); [exact H|discriminate H].
  - split; [reflexivity|].
    destruct (prompt_is_content_blob TestData.config TestData.ger1 [])
      as (_ & [H|[H _]] & _); [|exact H].
    destruct H as (pre & ws & body & post & _ & H & _).
    destruct body; discriminate H.
Defined.

(** * Further properties of the evaluator *)

(** ** The Elo engine: shape of the curve, size and direction of a step *)

Section EloFurther.

Local Open Scope R_scope.





Lemma verdict_score_range (token : str) : 0 <= verdict_score token <= 1.
Proof.
  destruct (verdict_score_cases token) as [->|[->| ->]]; lra.
Qed.




End EloFurther.

(** ** The pair generator: which pairs, and where their requests are *)

Lemma combinations2_lookup {A : Type} (l : list A) (x y : A) (i j : nat) :
  i < j -> l !! i = Some x -> l !! j = Some y ->
  (x, y) ∈ Py.combinations2 l.
Proof.
  revert i j. induction l as [|a l IH]; intros i j Hij Hi Hj; [done|].
  simpl. apply elem_of_app. destruct i as [|i].
  - left. simpl in Hi. injection Hi as ->.
    destruct j as [|j]; [lia|]. simpl in Hj.
    apply list_elem_of_fmap_2. by eapply list_elem_of_lookup_2.
  - right. destruct j as [|j]; [lia|]. simpl in Hi, Hj.
    apply (IH i j); [lia|done|done].
Qed.

Lemma combinations2_NoDup {A : Type} (l : list A) :
  NoDup l -> NoDup (Py.combinations2 l).
Proof.
  induction 1 as [|a l Ha Hl IH]; simpl; [constructor|].
  apply NoDup_app. split; [|split; [|done]].
  - apply NoDup_fmap_2; [|done]. by intros ? ? [= ->].
  - intros [x y] [b [[= -> ->] Hb]]%list_elem_of_fmap Hin.
    apply combinations2_elem in Hin as (i & _ & _ & Hi & _).
    apply Ha. by eapply list_elem_of_lookup_2.
Qed.

(** X5.  The pairs of [itertools.combinations(l, 2)] are exactly the
    [(l[i], l[j])] with [i < j]; when the list has no repeated element no
    pair comes twice and none pairs an element with itself. *)
Theorem combinations2_pairs {A : Type} (l : list A) :
  (forall x y,
     (x, y) ∈ Py.combinations2 l
     <-> exists i j, i < j /\ l !! i = Some x /\ l !! j = Some y)
  /\ (NoDup l ->
      NoDup (Py.combinations2 l)
      /\ forall x y, (x, y) ∈ Py.combinations2 l -> x ≠ y).
Proof.
  split.
  - intros x y. split; [apply combinations2_elem|].
    intros (i & j & Hij & Hi & Hj). by eapply combinations2_lookup.
  - intros Hnd. split; [by apply combinations2_NoDup|].
    intros x y (i & j & Hij & Hi & Hj)%combinations2_elem ->.
    assert (i = j); [|lia]. by eapply NoDup_lookup.
Qed.

Lemma combinations2_pairs_witness :
  NoDup (Py.combinations2 [1; 2; 3])
  /\ forall x y, (x, y) ∈ Py.combinations2 [1; 2; 3] -> x ≠ y.
Proof.
  apply (combinations2_pairs [1; 2; 3]).
  by apply (bool_decide_unpack _).
Defined.

Lemma bind_fmap_pair {A B C : Type} (a : A) (l : list B)
    (h : A * B -> list C) :
  (pair a <$> l) ≫= h = l ≫= (fun b => h (a, b)).
Proof.
  induction l as [|b l IH]; [done|].
  by rewrite fmap_cons, !bind_cons, IH.
Qed.

Lemma build_message_batches_fixtures (self : OpenAIEloEvaluatorConfig)
    (e : Experiment) :
  build_message_batches self e
  = fixtures e ≫= (fun gp => requests_of_pair self (test_case_of gp.1) gp.2).
Proof.
  rewrite build_message_batches_closed. unfold fixtures.
  induction (group_experiment_results e) as [|g l IH]; [done|].
  rewrite !bind_cons, bind_app, IH. f_equal.
  by rewrite bind_fmap_pair.
Qed.





(** ** The replay: closed form, and when it raises *)

Lemma length_schedule (e : Experiment) :
  2 * length (schedule e) = total_rounds e.
Proof.
  unfold schedule, total_rounds.
  induction (group_experiment_results e) as [|g l IH]; [done|].
  rewrite bind_cons, length_app, length_fmap, length_combinations2.
  rewrite fmap_cons. simpl sum_list. lia.
Qed.

Lemma replay_keys_no_first (responses : list str) (idx : nat)
    (d : gmap str R) (ks : str * str) :
  responses !! idx = None ->
  replay_keys responses (idx, d) ks = Raise (IndexError idx).
Proof.
  intros H. unfold replay_keys, replay_pair, getindex. by rewrite H.
Qed.

Lemma replay_keys_no_second (responses : list str) (idx : nat)
    (d : gmap str R) (ks : str * str) (c1 : str) :
  responses !! idx = Some c1 ->
  responses !! (idx + 1) = None ->
  replay_keys responses (idx, d) ks = Raise (IndexError (idx + 1)).
Proof.
  intros H1 H2. unfold replay_keys, replay_pair, getindex.
  rewrite H1. simpl. by rewrite H2.
Qed.

Lemma replay_keys_no_key1 (responses : list str) (idx : nat)
    (d : gmap str R) (k1 k2 c1 c2 : str) :
  responses !! idx = Some c1 ->
  responses !! (idx + 1) = Some c2 ->
  d !! k1 = None ->
  replay_keys responses (idx, d) (k1, k2) = Raise (KeyError k1).
Proof.
  intros H1 H2 H3. unfold replay_keys, replay_pair, getindex, getitem.
  rewrite H1. simpl. rewrite H2. simpl. by rewrite H3.
Qed.

Lemma replay_keys_no_key2 (responses : list str) (idx : nat)
    (d : gmap str R) (k1 k2 c1 c2 : str) (r1 : R) :
  responses !! idx = Some c1 ->
  responses !! (idx + 1) = Some c2 ->
  d !! k1 = Some r1 ->
  d !! k2 = None ->
  replay_keys responses (idx, d) (k1, k2) = Raise (KeyError k2).
Proof.
  intros H1 H2 H3 H4. unfold replay_keys, replay_pair, getindex, getitem.
  rewrite H1. simpl. rewrite H2. simpl. rewrite H3. simpl. by rewrite H4.
Qed.

Lemma dom_after_match (d : gmap str R) (k1 k2 : str) (r1 r2 a b : R) :
  d !! k1 = Some r1 -> d !! k2 = Some r2 ->
  dom (<[k2 := b]> (<[k1 := a]> d)) = dom d.
Proof.
  intros H1 H2. rewrite !dom_insert_lookup_L; [done|by eexists|].
  apply lookup_insert_is_Some'. right. by eexists.
Qed.

Lemma evens_cons2 {A : Type} (a b : A) (l : list A) :
  evens (a :: b :: l) = a :: evens l.
Proof. reflexivity. Qed.

Lemma play_rated (d : gmap str R) (k1 k2 token : str) (r1 r2 : R) :
  d !! k1 = Some r1 -> d !! k2 = Some r2 ->
  play d (k1, k2, token)
  = <[k2 := (update_elo r1 r2 (verdict_score token)).2]>
      (<[k1 := (update_elo r1 r2 (verdict_score token)).1]> d).
Proof. intros H1 H2. unfold play. by rewrite H1, H2. Qed.

(** A run of the replay that returns: there were enough responses, every
    side was rated, and the table is the fold of [play] over the matches
    and the tokens at the even positions. *)
Lemma replay_run_inv (responses : list str) (matches : list (str * str))
    (idx idx' : nat) (d d' : gmap str R) :
  idx <= length responses ->
  for_each (replay_keys responses) (idx, d) matches = Ok (idx', d') ->
  idx + 2 * length matches <= length responses
  /\ Forall (fun ks => ks.1 ∈ dom d /\ ks.2 ∈ dom d) matches
  /\ d' = foldl play d (zip matches (evens (drop idx responses))).
Proof.
  revert idx d. induction matches as [|[k1 k2] matches IH]; intros idx d Hidx.
  - simpl. intros [= <- <-]. split; [lia|]. by split.
  - rewrite for_each_cons.
    destruct (replay_keys responses (idx, d) (k1, k2)) as [[idx1 d1]|]
      eqn:Hstep; simpl; [|done].
    apply replay_keys_inv in Hstep
      as (c1 & c2 & r1 & r2 & Hc1 & Hc2 & Hr1 & Hr2 & -> & ->).
    intros Hrest.
    assert (idx + 1 < length responses) as Hlt
      by (apply lookup_lt_is_Some_1; by eexists).
    apply IH in Hrest as (Hlen & Hall & ->); [|lia].
    split; [lia|]. split.
    + constructor.
      * simpl. split; apply elem_of_dom; by eexists.
      * eapply Forall_impl; [exact Hall|]. intros ks.
        by rewrite (dom_after_match d k1 k2 r1 r2).
    + rewrite (drop_S _ c1 idx Hc1).
      replace (S idx) with (idx + 1) by lia.
      rewrite (drop_S _ c2 (idx + 1) Hc2).
      replace (S (idx + 1)) with (idx + 1 + 1) by lia.
      rewrite evens_cons2.
      change (zip ((k1, k2) :: matches)
                (c1 :: evens (drop (idx + 1 + 1) responses)))
        with ((k1, k2, c1)
              :: zip matches (evens (drop (idx + 1 + 1) responses))).
      change (foldl play d
                ((k1, k2, c1)
                 :: zip matches (evens (drop (idx + 1 + 1) responses))))
        with (foldl play (play d (k1, k2, c1))
                (zip matches (evens (drop (idx + 1 + 1) responses)))).
      by rewrite (play_rated d k1 k2 c1 r1 r2).
Qed.

Lemma replay_closed_form (self : OpenAIEloEvaluatorConfig) (pc : Dispatcher)
    (e : Experiment) (T : gmap str R) :
  final_ratings self pc e = Ok T ->
  T = foldl play (init_ratings (combination_aggregated_metrics e))
        (zip (schedule e)
           (evens (pc (build_message_batches self e)
                     (openai_model_name self)))).
Proof.
  unfold final_ratings. rewrite replay_schedule.
  destruct (for_each _ _ (schedule e)) as [[idx' d']|] eqn:Hrun; simpl;
    [|done].
  intros [= <-].
  apply replay_run_inv in Hrun as (_ & _ & ->); [done|lia].
Qed.

(** X7.  When the replay returns, the final table is the left fold of
    single-match updates over the matches in their order, the [i]-th match
    being scored with the response at position [2 i]; the responses at the
    odd positions have no part in it. *)
Theorem final_ratings_closed_form (self : OpenAIEloEvaluatorConfig)
    (pc : Dispatcher) (e : Experiment) (T : gmap str R) :
  final_ratings self pc e = Ok T ->
  T = foldl play (init_ratings (combination_aggregated_metrics e))
        (zip (schedule e)
           (evens (pc (build_message_batches self e)
                     (openai_model_name self)))).
Proof. apply replay_closed_form. Qed.

Lemma final_ratings_closed_form_witness :
  exists T,
    final_ratings TestData.config (TestData.always "A") TestData.duel = Ok T
    /\ T = foldl play
             (init_ratings (combination_aggregated_metrics TestData.duel))
             [(combination TestData.er1, combination TestData.er3, lit "A")].
Proof.
  destruct (evaluate_ok_inv _ _ _ _ duel_evaluate) as (T & HT & _).
  exists T. split; [exact HT|].
  apply (final_ratings_closed_form _ _ _ _ HT).
Defined.

Lemma evaluate_raises (self : OpenAIEloEvaluatorConfig) (pc : Dispatcher)
    (e : Experiment) (err : exn) :
  for_each
    (replay_keys (pc (build_message_batches self e) (openai_model_name self)))
    (0, init_ratings (combination_aggregated_metrics e)) (schedule e)
  = Raise err ->
  evaluate_based_on_all_results self pc [e] = Raise err.
Proof.
  intros H. unfold evaluate_based_on_all_results.
  by rewrite replay_schedule, H.
Qed.

Lemma listed_dom (e : Experiment) (k : str) :
  k ∈ listed e <-> k ∈ dom (init_ratings (combination_aggregated_metrics e)).
Proof. symmetry. apply dom_init_ratings. Qed.

(** X8.  On one experiment the evaluator returns normally exactly when the
    dispatcher gave at least [total_rounds] responses and the combination
    of every result that is part of a pair is listed in the
    aggregated-metrics records. *)
Theorem evaluate_returns_iff (self : OpenAIEloEvaluatorConfig)
    (pc : Dispatcher) (e : Experiment) :
  (exists out, evaluate_based_on_all_results self pc [e] = Ok out)
  <-> total_rounds e
      <= length (pc (build_message_batches self e) (openai_model_name self))
      /\ Forall (fun ks => ks.1 ∈ listed e /\ ks.2 ∈ listed e) (schedule e).
Proof.
  split.
  - intros [out Hout].
    apply evaluate_ok_inv in Hout as (T & HT & _).
    unfold final_ratings in HT. rewrite replay_schedule in HT.
    destruct (for_each _ _ (schedule e)) as [[idx' d']|] eqn:Hrun;
      simpl in HT; [|done].
    apply replay_run_inv in Hrun as (Hlen & Hall & _); [|lia].
    split; [rewrite <- length_schedule; lia|].
    eapply Forall_impl; [exact Hall|]. intros ks [H1 H2].
    by rewrite !listed_dom.
  - intros [Hlen Hall]. by apply evaluate_returns.
Qed.

Lemma replay_run_index_error (responses : list str)
    (matches : list (str * str)) (idx : nat) (d : gmap str R) :
  Forall (fun ks => ks.1 ∈ dom d /\ ks.2 ∈ dom d) matches ->
  idx <= length responses ->
  length responses < idx + 2 * length matches ->
  for_each (replay_keys responses) (idx, d) matches
  = Raise (IndexError (length responses)).
Proof.
  revert idx d. induction matches as [|[k1 k2] matches IH];
    intros idx d Hall Hidx Hshort; [simpl in Hshort; lia|].
  apply Forall_cons in Hall as [[[r1 Hr1]%elem_of_dom [r2 Hr2]%elem_of_dom]
                                Hall].
  simpl in Hr1, Hr2. simpl length in Hshort. rewrite for_each_cons.
  destruct (responses !! idx) as [c1|] eqn:Hc1.
  - destruct (responses !! (idx + 1)) as [c2|] eqn:Hc2.
    + rewrite (replay_keys_ok _ _ _ _ _ c1 c2 r1 r2) by done. simpl.
      apply lookup_lt_Some in Hc2. apply IH; [|lia|lia].
      eapply Forall_impl; [exact Hall|]. intros ks.
      by rewrite (dom_after_match d k1 k2 r1 r2).
    + rewrite (replay_keys_no_second _ _ _ _ c1) by done. simpl.
      apply lookup_lt_Some in Hc1. apply lookup_ge_None in Hc2.
      do 2 f_equal. lia.
  - rewrite replay_keys_no_first by done. simpl.
    apply lookup_ge_None in Hc1. do 2 f_equal. lia.
Qed.

(** X9.  When every combination that plays is listed and the dispatcher
    gave fewer than [total_rounds] responses, the evaluator raises
    [IndexError] at the first missing position, which is the number of
    responses it got. *)
Theorem evaluate_too_few_responses (self : OpenAIEloEvaluatorConfig)
    (pc : Dispatcher) (e : Experiment) :
  let responses :=
    pc (build_message_batches self e) (openai_model_name self) in
  Forall (fun ks => ks.1 ∈ listed e /\ ks.2 ∈ listed e) (schedule e) ->
  length responses < total_rounds e ->
  evaluate_based_on_all_results self pc [e]
  = Raise (IndexError (length responses)).
Proof.
  intros responses Hall Hshort. subst responses. apply evaluate_raises.
  apply replay_run_index_error; [|lia|rewrite length_schedule; lia].
  eapply Forall_impl; [exact Hall|]. intros ks [H1 H2].
  by rewrite <- !listed_dom.
Qed.

Lemma evaluate_too_few_responses_witness :
  evaluate_based_on_all_results TestData.config
    (fun _ _ => replicate 5 (lit "A")) [TestData.create_test_data_v2]
  = Raise (IndexError 5).
Proof.
  apply (evaluate_too_few_responses TestData.config
           (fun _ _ => replicate 5 (lit "A")) TestData.create_test_data_v2).
  - by apply (bool_decide_unpack _).
  - vm_compute. lia.
Defined.

Lemma replay_run_key_error (responses : list str)
    (matches : list (str * str)) (idx : nat) (d : gmap str R) :
  idx + 2 * length matches <= length responses ->
  Exists (fun ks => ks.1 ∉ dom d \/ ks.2 ∉ dom d) matches ->
  exists k,
    for_each (replay_keys responses) (idx, d) matches = Raise (KeyError k)
    /\ (k ∉ dom d)
    /\ exists ks, ks ∈ matches /\ (k = ks.1 \/ k = ks.2).
Proof.
  revert idx d. induction matches as [|[k1 k2] matches IH];
    intros idx d Hlen Hex; [by apply Exists_nil in Hex|].
  simpl length in Hlen. rewrite for_each_cons.
  destruct (lookup_lt_is_Some_2 responses idx) as [c1 Hc1]; [lia|].
  destruct (lookup_lt_is_Some_2 responses (idx + 1)) as [c2 Hc2]; [lia|].
  destruct (d !! k1) as [r1|] eqn:Hr1.
  - destruct (d !! k2) as [r2|] eqn:Hr2.
    + rewrite (replay_keys_ok _ _ _ _ _ c1 c2 r1 r2) by done. simpl.
      apply Exists_cons in Hex as [[H|H]|Hex].
      * destruct H. apply elem_of_dom. by eexists.
      * destruct H. apply elem_of_dom. by eexists.
      * destruct (IH (idx + 1 + 1)
                    (<[k2 := (update_elo r1 r2 (verdict_score c1)).2]>
                       (<[k1 := (update_elo r1 r2 (verdict_score c1)).1]> d)))
          as (k & Hk & Hnot & ks & Hin & Hks); [lia| |].
        { eapply Exists_impl; [exact Hex|]. intros ks.
          by rewrite (dom_after_match d k1 k2 r1 r2). }
        exists k. split; [exact Hk|].
        rewrite (dom_after_match d k1 k2 r1 r2) in Hnot by done.
        split; [done|]. exists ks. split; [by right|done].
    + rewrite (replay_keys_no_key2 _ _ _ _ _ c1 c2 r1) by done. simpl.
      exists k2. split; [done|]. split; [by apply not_elem_of_dom|].
      exists (k1, k2). split; [by left|by right].
  - rewrite (replay_keys_no_key1 _ _ _ _ _ c1 c2) by done. simpl.
    exists k1. split; [done|]. split; [by apply not_elem_of_dom|].
    exists (k1, k2). split; [by left|by left].
Qed.

(** X10.  When the dispatcher gave enough responses and some result that
    is part of a pair has a combination that no aggregated-metrics record
    lists, the evaluator raises [KeyError] on such a combination. *)
Theorem evaluate_unlisted_combination (self : OpenAIEloEvaluatorConfig)
    (pc : Dispatcher) (e : Experiment) :
  total_rounds e
  <= length (pc (build_message_batches self e) (openai_model_name self)) ->
  Exists (fun ks => ks.1 ∉ listed e \/ ks.2 ∉ listed e) (schedule e) ->
  exists k,
    evaluate_based_on_all_results self pc [e] = Raise (KeyError k)
    /\ (k ∉ listed e)
    /\ plays k e.
Proof.
  intros Hlen Hex.
  destruct (replay_run_key_error
              (pc (build_message_batches self e) (openai_model_name self))
              (schedule e) 0
              (init_ratings (combination_aggregated_metrics e)))
    as (k & Hk & Hnot & Hplays).
  - rewrite length_schedule. lia.
  - eapply Exists_impl; [exact Hex|]. intros ks H.
    by rewrite <- !listed_dom.
  - exists k. split; [by apply evaluate_raises|].
    split; [by rewrite listed_dom|exact Hplays].
Qed.

Lemma evaluate_returns_iff_witness :
  total_rounds TestData.duel
  <= length (TestData.always "A"
               (build_message_batches TestData.config TestData.duel)
               (openai_model_name TestData.config))
  /\ Forall (fun ks => ks.1 ∈ listed TestData.duel
                       /\ ks.2 ∈ listed TestData.duel)
       (schedule TestData.duel).
Proof.
  apply (evaluate_returns_iff TestData.config (TestData.always "A")
           TestData.duel).
  eexists. exact duel_evaluate.
Defined.

Lemma evaluate_unlisted_combination_witness :
  exists k,
    evaluate_based_on_all_results TestData.config (TestData.always "A")
      [stray]
    = Raise (KeyError k)
    /\ (k ∉ listed stray)
    /\ plays k stray.
Proof.
  apply (evaluate_unlisted_combination TestData.config (TestData.always "A")
           stray).
  - vm_compute. lia.
  - by apply (bool_decide_unpack _).
Defined.

(** ** The replay: surplus responses *)

Lemma replay_keys_agree (responses responses' : list str) (idx : nat)
    (d : gmap str R) (ks : str * str) :
  responses !! idx = responses' !! idx ->
  responses !! (idx + 1) = responses' !! (idx + 1) ->
  replay_keys responses (idx, d) ks = replay_keys responses' (idx, d) ks.
Proof.
  intros H1 H2. unfold replay_keys, replay_pair, getindex. simpl.
  by rewrite H1, H2.
Qed.

Lemma replay_run_surplus (responses extra : list str)
    (matches : list (str * str)) (idx : nat) (d : gmap str R) :
  idx + 2 * length matches <= length responses ->
  for_each (replay_keys (responses ++ extra)) (idx, d) matches
  = for_each (replay_keys responses) (idx, d) matches.
Proof.
  revert idx d. induction matches as [|[k1 k2] matches IH];
    intros idx d Hlen; [done|].
  simpl length in Hlen. rewrite !for_each_cons.
  rewrite (replay_keys_agree (responses ++ extra) responses)
    by (apply lookup_app_l; lia).
  destruct (replay_keys responses (idx, d) (k1, k2)) as [[idx1 d1]|]
    eqn:Hstep; simpl; [|done].
  apply replay_keys_inv in Hstep as (_ & _ & _ & _ & _ & _ & _ & _ & -> & _).
  apply IH. lia.
Qed.

(** X11.  Responses beyond the first [total_rounds] are never read: with
    enough responses, any further ones leave the outcome of the replay as
    it is. *)
Theorem replay_surplus_responses (responses extra : list str)
    (d : gmap str R) (e : Experiment) :
  total_rounds e <= length responses ->
  replay (responses ++ extra) d e = replay responses d e.
Proof.
  intros Hlen. rewrite !replay_schedule.
  rewrite replay_run_surplus; [done|]. rewrite length_schedule. lia.
Qed.

Lemma replay_surplus_responses_witness :
  replay (replicate 2 (lit "A") ++ [lit "B"; lit "B"; lit "B"])
    (init_ratings (combination_aggregated_metrics TestData.duel))
    TestData.duel
  = replay (replicate 2 (lit "A"))
      (init_ratings (combination_aggregated_metrics TestData.duel))
      TestData.duel.
Proof.
  apply (replay_surplus_responses (replicate 2 (lit "A"))
           [lit "B"; lit "B"; lit "B"]).
  vm_compute. lia.
Defined.

(** ** The final table: sum, range and ties *)









Lemma final_ratings_dom (self : OpenAIEloEvaluatorConfig) (pc : Dispatcher)
    (e : Experiment) (T : gmap str R) :
  final_ratings self pc e = Ok T ->
  dom T = dom (init_ratings (combination_aggregated_metrics e)).
Proof.
  unfold final_ratings. rewrite replay_schedule.
  destruct (for_each _ _ (schedule e)) as [[idx' d']|] eqn:Hrun; simpl;
    [|done].
  intros [= <-].
  by apply (replay_run_frame _ _ _ _ _ _ []) in Hrun as (_ & ? & _).
Qed.

Lemma init_ratings_all_1200 (cams : list CombinationAggregatedMetrics)
    (k : str) (r : R) :
  init_ratings cams !! k = Some r -> r = 1200%R.
Proof.
  rewrite init_ratings_lookup. case_decide; [|done]. by intros [= <-].
Qed.



Lemma update_elo_level_tie :
  update_elo 1200 1200 (1 / 2) = (1200%R, 1200%R).
Proof.
  unfold update_elo. rewrite expected_score_same. unfold K.
  f_equal; lra.
Qed.

Lemma play_tie (d : gmap str R) (k1 k2 token : str) :
  (forall k r, d !! k = Some r -> r = 1200%R) ->
  indeterminate token ->
  play d (k1, k2, token) = d.
Proof.
  intros Hall [HA HB]. unfold play.
  destruct (d !! k1) as [r1|] eqn:H1; [|done].
  destruct (d !! k2) as [r2|] eqn:H2; [|done].
  assert (r1 = 1200%R) as -> by eauto.
  assert (r2 = 1200%R) as -> by eauto.
  rewrite verdict_score_other, update_elo_level_tie by done. simpl.
  rewrite (insert_id d k1) by done. by rewrite insert_id.
Qed.

Lemma foldl_play_cons (k1 k2 c : str) (matches : list (str * str))
    (tokens : list str) (d : gmap str R) :
  foldl play d (zip ((k1, k2) :: matches) (c :: tokens))
  = foldl play (play d (k1, k2, c)) (zip matches tokens).
Proof. reflexivity. Qed.

Lemma foldl_play_tie (matches : list (str * str)) (tokens : list str)
    (d : gmap str R) :
  (forall k r, d !! k = Some r -> r = 1200%R) ->
  Forall indeterminate tokens ->
  foldl play d (zip matches tokens) = d.
Proof.
  intros Hall Htok. revert tokens Htok.
  induction matches as [|[k1 k2] matches IH]; intros tokens Htok; [done|].
  destruct Htok as [|c tokens Hc Htok]; [done|].
  rewrite foldl_play_cons, play_tie by done. by apply IH.
Qed.

Lemma Forall_evens {A : Type} (P : A -> Prop) (l : list A) :
  Forall P l -> Forall P (evens l).
Proof.
  revert l. fix IH 2. intros l [|a l' Ha [|b l'' Hb Hl]].
  - constructor.
  - by repeat constructor.
  - rewrite evens_cons2. constructor; [done|]. by apply IH.
Qed.

(** X13.  When no response is "A" or "B", no rating moves: a run that
    returns ends with every listed treatment still at 1200, and writes
    1200 on every record. *)
Theorem indeterminate_judge (self : OpenAIEloEvaluatorConfig)
    (pc : Dispatcher) (e : Experiment) :
  Forall indeterminate
    (pc (build_message_batches self e) (openai_model_name self)) ->
  (forall T, final_ratings self pc e = Ok T ->
             T = init_ratings (combination_aggregated_metrics e))
  /\ (forall out,
        evaluate_based_on_all_results self pc [e] = Ok out ->
        out = [ {| group_experiment_results := group_experiment_results e;
                   combination_aggregated_metrics :=
                     with_rating 1200%R
                     <$> combination_aggregated_metrics e |} ]).
Proof.
  intros Htok.
  assert (forall T, final_ratings self pc e = Ok T ->
                    T = init_ratings (combination_aggregated_metrics e))
    as Hsame.
  { intros T HT. rewrite (replay_closed_form _ _ _ _ HT).
    apply foldl_play_tie; [apply init_ratings_all_1200|].
    by apply Forall_evens. }
  split; [exact Hsame|].
  intros out (T & HT & _ & ->)%evaluate_ok_inv.
  rewrite (Hsame T HT). do 2 f_equal.
  apply list_fmap_ext. intros i c Hc.
  rewrite (init_ratings_listed _ c); [done|].
  by eapply list_elem_of_lookup_2.
Qed.

Lemma indeterminate_judge_witness :
  evaluate_based_on_all_results TestData.config (TestData.always "")
    [TestData.duel]
  = Ok [ {| group_experiment_results :=
              group_experiment_results TestData.duel;
            combination_aggregated_metrics :=
              [ with_rating 1200%R TestData.cam1;
                with_rating 1200%R TestData.cam2 ] |} ].
Proof.
  destruct (evaluate_returns TestData.config (TestData.always "")
              TestData.duel) as [out Hout].
  - vm_compute. lia.
  - by apply (bool_decide_unpack _).
  - rewrite Hout. f_equal.
    apply (indeterminate_judge TestData.config (TestData.always "")
             TestData.duel); [|exact Hout].
    by apply (bool_decide_unpack _).
Defined.

Lemma update_elo_within (r1 r2 : R) (token : str) :
  (- 32 < (update_elo r1 r2 (verdict_score token)).1 - r1 < 32
   /\ - 32 < (update_elo r1 r2 (verdict_score token)).2 - r2 < 32)%R.
Proof.
  pose proof (expected_score_bounds r1 r2) as H12.
  pose proof (expected_score_bounds r2 r1) as H21.
  pose proof (verdict_score_range token) as Hv.
  unfold update_elo, K. simpl. split; split; nra.
Qed.

Lemma play_range (d : gmap str R) (m : str * str * str) (lo hi : R) :
  (forall k r, d !! k = Some r -> (lo <= r <= hi)%R) ->
  forall k r, play d m !! k = Some r -> (lo - 32 <= r <= hi + 32)%R.
Proof.
  intros Hall k r. destruct m as [[k1 k2] token]. unfold play.
  destruct (d !! k1) as [r1|] eqn:H1;
    [|intros Hk; specialize (Hall k r Hk); lra].
  destruct (d !! k2) as [r2|] eqn:H2;
    [|intros Hk; specialize (Hall k r Hk); lra].
  pose proof (update_elo_within r1 r2 token) as [Ha Hb].
  pose proof (Hall k1 r1 H1). pose proof (Hall k2 r2 H2).
  destruct (decide (k = k2)) as [->|Hk2].
  { rewrite lookup_insert_eq. intros Hr. apply (inj Some) in Hr.
    subst r. lra. }
  rewrite lookup_insert_ne by done.
  destruct (decide (k = k1)) as [->|Hk1].
  { rewrite lookup_insert_eq. intros Hr. apply (inj Some) in Hr.
    subst r. lra. }
  rewrite lookup_insert_ne by done.
  intros Hk. specialize (Hall k r Hk). lra.
Qed.

Lemma foldl_play_range (l : list (str * str * str)) (d : gmap str R)
    (lo hi : R) :
  (forall k r, d !! k = Some r -> (lo <= r <= hi)%R) ->
  forall k r,
    foldl play d l !! k = Some r ->
    (lo - 32 * INR (length l) <= r <= hi + 32 * INR (length l))%R.
Proof.
  revert d lo hi. induction l as [|m l IH]; intros d lo hi Hall k r.
  - simpl. intros Hk. specialize (Hall k r Hk). lra.
  - change (foldl play d (m :: l)) with (foldl play (play d m) l).
    intros Hk.
    pose proof (IH (play d m) (lo - 32)%R (hi + 32)%R
                  (play_range d m lo hi Hall) k r Hk) as Hr.
    change (length (m :: l)) with (S (length l)). rewrite S_INR. lra.
Qed.

(** X14.  The final table rates exactly the listed keys, and each rating
    is within 32 points per match of the experiment from 1200. *)
Theorem final_ratings_range (self : OpenAIEloEvaluatorConfig)
    (pc : Dispatcher) (e : Experiment) (T : gmap str R) :
  final_ratings self pc e = Ok T ->
  (forall k, is_Some (T !! k) <-> k ∈ listed e)
  /\ forall k r,
       T !! k = Some r ->
       (1200 - 32 * INR (length (schedule e)) <= r
        <= 1200 + 32 * INR (length (schedule e)))%R.
Proof.
  intros HT. split.
  - intros k. rewrite <- elem_of_dom, (final_ratings_dom _ _ _ _ HT).
    symmetry. apply listed_dom.
  - intros k r Hk. rewrite (replay_closed_form _ _ _ _ HT) in Hk.
    apply (foldl_play_range _ _ 1200%R 1200%R) in Hk.
    + pose proof (length_zip_with pair (schedule e)
                    (evens (pc (build_message_batches self e)
                              (openai_model_name self)))) as Hlen.
      assert (INR (length (zip (schedule e)
                             (evens (pc (build_message_batches self e)
                                       (openai_model_name self)))))
              <= INR (length (schedule e)))%R as Hle.
      { apply le_INR. rewrite Hlen. lia. }
      lra.
    + intros k' r' Hk'. apply init_ratings_all_1200 in Hk'. lra.
Qed.

Lemma final_ratings_range_witness :
  exists T,
    final_ratings TestData.config (TestData.always "A") TestData.duel = Ok T
    /\ forall k r,
         T !! k = Some r ->
         (1200 - 32 * INR (length (schedule TestData.duel)) <= r
          <= 1200 + 32 * INR (length (schedule TestData.duel)))%R.
Proof.
  destruct (evaluate_ok_inv _ _ _ _ duel_evaluate) as (T & HT & _).
  exists T. split; [exact HT|].
  apply (final_ratings_range _ _ _ _ HT).
Defined.

(** X15.  An experiment with one match between two different listed
    treatments: the first is rated 1200 plus 32 times (its outcome minus
    one half), the second 1200 minus the same amount (so 1216 and 1184 on
    "A", 1184 and 1216 on "B", 1200 and 1200 otherwise), and every other
    listed treatment stays at 1200. *)
Theorem single_match (self : OpenAIEloEvaluatorConfig) (pc : Dispatcher)
    (e : Experiment) (k1 k2 token other : str) :
  schedule e = [(k1, k2)] ->
  k1 ≠ k2 -> k1 ∈ listed e -> k2 ∈ listed e ->
  pc (build_message_batches self e) (openai_model_name self)
  = [token; other] ->
  exists T,
    final_ratings self pc e = Ok T
    /\ T !! k1 = Some (1200 + 32 * (verdict_score token - 1 / 2))%R
    /\ T !! k2 = Some (1200 - 32 * (verdict_score token - 1 / 2))%R
    /\ forall k, k ∈ listed e -> k ≠ k1 -> k ≠ k2 -> T !! k = Some 1200%R.
Proof.
  intros Hsched Hne H1 H2 Hresp.
  assert (forall k, k ∈ listed e ->
            init_ratings (combination_aggregated_metrics e) !! k
            = Some 1200%R) as Hinit.
  { intros k Hk. rewrite init_ratings_lookup. by rewrite decide_True. }
  eexists. unfold final_ratings.
  rewrite replay_schedule, Hsched, Hresp, for_each_cons.
  rewrite (replay_keys_ok _ _ _ _ _ token other 1200%R 1200%R);
    [|done|done|by apply Hinit|by apply Hinit].
  split; [reflexivity|]. simpl. rewrite expected_score_same. unfold K.
  split; [|split].
  - rewrite lookup_insert_ne by done. rewrite lookup_insert_eq.
    f_equal; lra.
  - rewrite lookup_insert_eq. f_equal; lra.
  - intros k Hk Hk1 Hk2. rewrite !lookup_insert_ne by done. by apply Hinit.
Qed.

Lemma single_match_witness :
  exists T,
    final_ratings TestData.config (TestData.always "B") TestData.duel = Ok T
    /\ T !! combination TestData.er1
       = Some (1200 + 32 * (verdict_score (lit "B") - 1 / 2))%R
    /\ T !! combination TestData.er3
       = Some (1200 - 32 * (verdict_score (lit "B") - 1 / 2))%R.
Proof.
  destruct (single_match TestData.config (TestData.always "B") TestData.duel
              (combination TestData.er1) (combination TestData.er3)
              (lit "B") (lit "B"))
    as (T & HT & Ha & Hb & _).
  - reflexivity.
  - done.
  - by apply (bool_decide_unpack _).
  - by apply (bool_decide_unpack _).
  - reflexivity.
  - by exists T.
Defined.

(** ** The task line of a request *)

Lemma lstrip_spaces (ws : str) :
  Forall (fun c => Py.isspace c = true) ws -> Py.lstrip ws = [].
Proof. induction 1 as [|c ws Hc _ IH]; [done|]. simpl. by rewrite Hc. Qed.

Lemma lstrip_spaces_app (ws x : str) :
  Forall (fun c => Py.isspace c = true) ws ->
  Py.lstrip (ws ++ x) = Py.lstrip x.
Proof. induction 1 as [|c ws Hc _ IH]; [done|]. simpl. by rewrite Hc. Qed.

Lemma lstrip_nil_spaces (s : str) :
  Py.lstrip s = [] -> Forall (fun c => Py.isspace c = true) s.
Proof.
  induction s as [|c s IH]; [constructor|].
  simpl. destruct (Py.isspace c) eqn:Hc; [|done].
  intros H. constructor; [done|by apply IH].
Qed.

Lemma lstrip_app_keep (s t : str) :
  Py.lstrip s ≠ [] -> Py.lstrip (s ++ t) = Py.lstrip s ++ t.
Proof.
  induction s as [|c s IH]; [done|].
  simpl. destruct (Py.isspace c); [apply IH|done].
Qed.

Lemma lstrip_head (s : str) (c : N) :
  head (Py.lstrip s) = Some c -> Py.isspace c = false.
Proof.
  induction s as [|a s IH]; [done|].
  simpl. destruct (Py.isspace a) eqn:Ha; [apply IH|].
  simpl. by intros [= <-].
Qed.

Lemma strip_padding (ws1 s ws2 : str) :
  Forall (fun c => Py.isspace c = true) ws1 ->
  Forall (fun c => Py.isspace c = true) ws2 ->
  Py.strip (ws1 ++ s ++ ws2) = Py.strip s.
Proof.
  intros H1 H2. unfold Py.strip. rewrite lstrip_spaces_app by done.
  destruct (Py.lstrip s) as [|a s'] eqn:Hs.
  - apply lstrip_nil_spaces in Hs.
    rewrite (lstrip_spaces (s ++ ws2)); [done|]. by apply Forall_app.
  - rewrite lstrip_app_keep by by rewrite Hs.
    rewrite Hs, rev_app_distr, lstrip_spaces_app; [done|].
    by apply Forall_rev.
Qed.

Lemma rev_is_reverse {A : Type} (l : list A) : rev l = reverse l.
Proof. apply rev_alt. Qed.

Lemma strip_ends (s : str) (c : N) :
  head (Py.strip s) = Some c \/ last (Py.strip s) = Some c ->
  Py.isspace c = false.
Proof.
  unfold Py.strip. rewrite !rev_is_reverse.
  rewrite head_reverse, last_reverse. intros [Hlast|Hhead].
  - destruct (lstrip_split (reverse (Py.lstrip s))) as (ws & Hsplit & _).
    destruct (Py.lstrip (reverse (Py.lstrip s))) as [|a l] eqn:Hl; [done|].
    assert (last (reverse (Py.lstrip s)) = Some c) as Hlast'.
    { rewrite Hsplit, last_app. by rewrite Hlast. }
    rewrite last_reverse in Hlast'. by eapply lstrip_head.
  - by eapply lstrip_head.
Qed.

Lemma message_description (self1 self2 : OpenAIEloEvaluatorConfig)
    (test_case a b : str) :
  Py.strip (input_description self2) = Py.strip (input_description self1) ->
  message self2 test_case a b = message self1 test_case a b.
Proof. intros H. unfold message, user_content. by rewrite H. Qed.

Lemma build_message_batches_description
    (self1 self2 : OpenAIEloEvaluatorConfig) (e : Experiment) :
  Py.strip (input_description self2) = Py.strip (input_description self1) ->
  build_message_batches self2 e = build_message_batches self1 e.
Proof.
  intros H. rewrite !build_message_batches_fixtures.
  induction (fixtures e) as [|gp l IH]; [done|].
  rewrite !bind_cons, IH. f_equal. unfold requests_of_pair.
  by rewrite !(message_description self1 self2).
Qed.

(** X16.  The task line of a request holds the description without the
    white space around it: it neither begins nor ends with a white-space
    character, and two descriptions that differ only by white space at
    their ends give the same list of requests. *)
Theorem description_is_stripped (self1 self2 : OpenAIEloEvaluatorConfig)
    (e : Experiment) (ws1 ws2 : str) :
  Forall (fun c => Py.isspace c = true) ws1 ->
  Forall (fun c => Py.isspace c = true) ws2 ->
  input_description self2 = ws1 ++ input_description self1 ++ ws2 ->
  build_message_batches self2 e = build_message_batches self1 e
  /\ forall c,
       head (Py.strip (input_description self1)) = Some c
       \/ last (Py.strip (input_description self1)) = Some c ->
       Py.isspace c = false.
Proof.
  intros H1 H2 Hdesc. split; [|apply strip_ends].
  apply build_message_batches_description.
  rewrite Hdesc. by apply strip_padding.
Qed.

Lemma description_is_stripped_witness :
  build_message_batches
    {| openai_model_name := lit "gpt-4";
       input_description :=
         [9%N; 32%N] ++ input_description TestData.config ++ [32%N; 10%N] |}
    TestData.create_test_data_v2
  = build_message_batches TestData.config TestData.create_test_data_v2.
Proof.
  apply (description_is_stripped TestData.config
           {| openai_model_name := lit "gpt-4";
              input_description :=
                [9%N; 32%N] ++ input_description TestData.config
                ++ [32%N; 10%N] |}
           TestData.create_test_data_v2 [9%N; 32%N] [32%N; 10%N]).
  - by repeat constructor.
  - by repeat constructor.
  - reflexivity.
Defined.

(** ** A treatment that meets itself *)

(** X17.  When the two results of a pair have the same combination, the
    step writes the second of the two new ratings: on an outcome [s] the
    treatment moves by [K * (1 / 2 - s)], so the verdict "A" costs it 16
    points and the verdict "B" brings it 16. *)
Theorem replay_pair_same_combination (responses : list str) (idx : nat)
    (d : gmap str R) (result1 result2 : ExperimentResult) (c1 c2 : str)
    (r : R) :
  combination result1 = combination result2 ->
  responses !! idx = Some c1 ->
  responses !! (idx + 1) = Some c2 ->
  d !! combination result1 = Some r ->
  replay_pair responses (idx, d) (result1, result2)
  = Ok (idx + 1 + 1,
        <[combination result1 := (r + K * (1 / 2 - verdict_score c1))%R]> d).
Proof.
  intros Hsame H1 H2 Hr.
  rewrite (replay_pair_ok _ _ _ _ _ c1 c2 r r) by (by rewrite <- ?Hsame).
  rewrite <- Hsame, insert_insert_eq. do 3 f_equal.
  unfold update_elo. simpl. rewrite expected_score_same. lra.
Qed.

Lemma replay_pair_same_combination_witness :
  replay_pair [lit "A"; lit "A"]
    (0, init_ratings (combination_aggregated_metrics TestData.duel))
    (TestData.er1, TestData.er2)
  = Ok (2,
        <[combination TestData.er1 :=
            (1200 + K * (1 / 2 - verdict_score (lit "A")))%R]>
          (init_ratings (combination_aggregated_metrics TestData.duel))).
Proof.
  apply (replay_pair_same_combination [lit "A"; lit "A"] 0 _
           TestData.er1 TestData.er2 (lit "A") (lit "A") 1200%R);
    reflexivity.
Defined.

(** ** The call of [main] *)

Lemma requests_of_group_elem (self : OpenAIEloEvaluatorConfig)
    (g : GroupedExperimentResult) (m : list ChatMessage) :
  m ∈ requests_of_group self g ->
  exists a b, m = message self (test_case_of g) a b.
Proof.
  unfold requests_of_group. intros (p & Hm & _)%list_elem_of_bind.
  unfold requests_of_pair in Hm.
  apply elem_of_cons in Hm as [->|Hm]; [by eexists _, _|].
  apply elem_of_cons in Hm as [->|Hm]; [by eexists _, _|].
  by apply elem_of_nil in Hm.
Qed.

(** X18.  The call that [main] makes, on the data of
    [create_test_data_v2]: every combination of the data is listed, so the
    call returns exactly when the judge gives at least 12 responses; it
    then leaves one output on each of the three records; and none of the
    12 requests has a task text after "Prompt:", because the group keys of
    the data hold no "content:" label. *)
Theorem main_call (self : OpenAIEloEvaluatorConfig) (pc : Dispatcher) :
  let e := TestData.create_test_data_v2 in
  ((exists out, evaluate_based_on_all_results self pc [e] = Ok out)
   <-> 12 <= length (pc (build_message_batches self e)
                       (openai_model_name self)))
  /\ (forall out,
        evaluate_based_on_all_results self pc [e] = Ok out ->
        exists ra rb rc,
          out = [ {| group_experiment_results := [TestData.ger1; TestData.ger2];
                     combination_aggregated_metrics :=
                       [ with_rating ra TestData.cam1;
                         with_rating rb TestData.cam2;
                         with_rating rc TestData.cam3 ] |} ])
  /\ length (build_message_batches self e) = 12
  /\ forall m, m ∈ build_message_batches self e ->
               exists a b, m = message self [] a b.
Proof.
  intros e. split; [|split; [|split]].
  - split.
    + intros [out (T & HT & _)%evaluate_ok_inv].
      unfold final_ratings in HT. rewrite replay_schedule in HT.
      destruct (for_each _ _ (schedule e)) as [[idx' d']|] eqn:Hrun;
        simpl in HT; [|done].
      apply replay_run_inv in Hrun as (Hlen & _); [|lia].
      change (length (schedule e)) with 6 in Hlen. lia.
    + intros Hlen. apply evaluate_returns; [exact Hlen|].
      by apply (bool_decide_unpack _).
  - intros out (T & HT & _ & ->)%evaluate_ok_inv. by eexists _, _, _.
  - by rewrite length_build_message_batches.
  - intros m. rewrite build_message_batches_closed.
    intros (g & Hm & Hg)%list_elem_of_bind.
    apply requests_of_group_elem in Hm as (a & b & ->).
    exists a, b.
    apply elem_of_cons in Hg as [->|Hg]; [done|].
    apply elem_of_cons in Hg as [->|Hg]; [done|].
    by apply elem_of_nil in Hg.
Qed.

Lemma main_call_witness :
  exists out,
    evaluate_based_on_all_results TestData.config (TestData.always "A")
      [TestData.create_test_data_v2]
    = Ok out.
Proof.
  apply (main_call TestData.config (TestData.always "A")).
  vm_compute. lia.
Defined.

(** ** Reading a blob back from a key *)

Lemma blob_body_unique (ws ws' body body' post post' : str) :
  Forall (fun c => Py.isspace c = true) ws ->
  Forall (fun c => Py.isspace c = true) ws' ->
  Forall (fun c => c ≠ 10%N /\ c ≠ 125%N) body ->
  length body' <= length body ->
  ws' ++ lit "{" ++ body' ++ lit "}" ++ post'
  = ws ++ lit "{" ++ body ++ lit "}" ++ post ->
  body' = body.
Proof.
  intros Hws Hws' Hbody Hlen Heq.
  apply (f_equal Py.lstrip) in Heq. rewrite !lstrip_brace in Heq by done.
  apply (inj (app _)) in Heq.
  destruct (decide (length body' = length body)) as [Hsame|Hshort].
  { by apply app_inj_1 in Heq as [? _]. }
  destruct (shorter_prefix body' body _ _ Heq) as [t ->]; [lia|].
  rewrite <- app_assoc in Heq. apply (inj (app _)) in Heq.
  destruct t as [|c t]; [rewrite length_app in Hshort; simpl in Hshort; lia|].
  apply Forall_app in Hbody as [_ Hbody].
  apply Forall_cons in Hbody as [[_ Hc] _].
  change (lit "}") with [125%N] in Heq. simpl in Heq.
  injection Heq as Heq _. congruence.
Qed.

(** X19.  A key read back: when the first "content:" of a key is followed
    by white space, a brace-delimited text without line feed or closing
    brace in it, and then a comma or the end of the key, the task text of
    the group is that brace-delimited text. *)
Theorem test_case_of_key (g : GroupedExperimentResult)
    (pre ws body post : str) :
  group_key g = pre ++ lit "content:" ++ ws ++ lit "{" ++ body ++ lit "}"
                ++ post ->
  (forall p q, group_key g = p ++ lit "content:" ++ q ->
               length pre <= length p) ->
  Forall (fun c => Py.isspace c = true) ws ->
  Forall (fun c => c ≠ 10%N /\ c ≠ 125%N) body ->
  closes post ->
  test_case_of g = lit "{" ++ body ++ lit "}".
Proof.
  intros Hkey Hfirst Hws Hbody Hpost.
  assert (blob_at (group_key g) pre ws body post) as Hblob.
  { eexists. split; [exact Hkey|]. split; [done|]. split; [done|].
    split; [|done]. eapply Forall_impl; [exact Hbody|]. by intros c [? _]. }
  destruct (test_case_of_cases g)
    as [(pre0 & ws0 & body0 & post0 & Hblob0 & -> & Hmin)|[Hnone _]];
    [|by destruct (Hnone _ _ _ _ Hblob)].
  destruct (Hmin _ _ _ _ Hblob) as [Hle Hshort].
  destruct Hblob0 as (rest0 & Hkey0 & Hs0 & Hws0 & _ & _).
  assert (length pre <= length pre0) as Hge.
  { apply (Hfirst pre0 (ws0 ++ lit "{" ++ body0 ++ lit "}" ++ post0)).
    by rewrite Hkey0, Hs0. }
  rewrite Hkey0, Hs0 in Hkey.
  apply app_inj_1 in Hkey as [_ Hrest]; [|lia].
  apply (inj (app _)) in Hrest.
  rewrite (blob_body_unique ws ws0 body body0 post post0); try done.
  apply Hshort. lia.
Qed.

Lemma test_case_of_key_witness :
  test_case_of
    {| group_key :=
         [] ++ lit "content:" ++ lit " " ++ lit "{" ++ lit "'text': 'Hi'"
         ++ lit "}" ++ lit ", expected: None";
       experiment_results := [] |}
  = lit "{" ++ lit "'text': 'Hi'" ++ lit "}".
Proof.
  apply (test_case_of_key _ [] (lit " ") (lit "'text': 'Hi'")
           (lit ", expected: None")).
  - reflexivity.
  - intros p q _. simpl. lia.
  - by apply (bool_decide_unpack _).
  - by apply (bool_decide_unpack _).
  - left. by eexists.
Defined.
